(** * ELTeC-pol: enrichment of the corpus metadata with Wikidata identifiers

    A shallow embedding of [enrich_with_wikidata_pol.py] and the properties
    of its specification that were checked against it.

    Python strings are sequences of Unicode code points; they are modelled
    as lists of code points ([N]).  The remote SPARQL endpoint, the standard
    output, the clock and the output file are modelled by a trace of events;
    the endpoint itself is an arbitrary function of the history. *)

From Stdlib Require Import NArith.
From Stdlib Require QArith_base.
From stdpp Require Import base option list strings gmap.

Local Open Scope N_scope.

(** ** Strings *)

Abbreviation str := (list N).

(** ASCII literals: the code points of a Rocq string. *)
Definition lit (x : string) : str :=
  map Ascii.N_of_ascii (String.list_ascii_of_string x).
Arguments lit : simpl never.

Definition quote : N := 34.       (* the double quote character *)
Definition backslash : N := 92.
Definition newline : N := 10.
Definition arrow : N := 8594.     (* U+2192, used in the progress messages *)

Fixpoint drop_while (p : N -> bool) (s : str) : str :=
  match s with
  | [] => []
  | c :: r => if p c then drop_while p r else s
  end.

Fixpoint take_while (p : N -> bool) (s : str) : str :=
  match s with
  | [] => []
  | c :: r => if p c then c :: take_while p r else []
  end.

(** [s.lstrip(chars)], [s.rstrip(chars)] and [s.strip(chars)], the set of
    characters given by its membership test. *)
Definition lstrip (p : N -> bool) (s : str) : str := drop_while p s.
Definition rstrip (p : N -> bool) (s : str) : str := reverse (drop_while p (reverse s)).
Definition strip (p : N -> bool) (s : str) : str := rstrip p (lstrip p s).

(** [s.replace(old, new)] for a one-character [old]. *)
Definition replace_char (old : N) (new : str) (s : str) : str :=
  flat_map (fun c => if c =? old then new else [c]) s.

(** [s.rsplit(sep, 1)[-1]] for a one-character [sep]: what follows the last
    [sep], the whole string when there is none. *)
Definition rsplit_last (sep : N) (s : str) : str :=
  reverse (take_while (fun c => negb (c =? sep)) (reverse s)).

(** [prefix ++ rest = s]: the rest of [s] after [prefix]. *)
Fixpoint after_prefix (prefix s : str) : option str :=
  match prefix, s with
  | [], _ => Some s
  | _ :: _, [] => None
  | a :: p, c :: r => if a =? c then after_prefix p r else None
  end.

(** Decimal rendering of a natural number, as [str(n)] does. *)
Fixpoint uint_digits (d : Decimal.uint) : str :=
  match d with
  | Decimal.Nil => []
  | Decimal.D0 r => 48 :: uint_digits r
  | Decimal.D1 r => 49 :: uint_digits r
  | Decimal.D2 r => 50 :: uint_digits r
  | Decimal.D3 r => 51 :: uint_digits r
  | Decimal.D4 r => 52 :: uint_digits r
  | Decimal.D5 r => 53 :: uint_digits r
  | Decimal.D6 r => 54 :: uint_digits r
  | Decimal.D7 r => 55 :: uint_digits r
  | Decimal.D8 r => 56 :: uint_digits r
  | Decimal.D9 r => 57 :: uint_digits r
  end.

Definition str_of_nat (n : nat) : str := uint_digits (Nat.to_uint n).

(** Truthiness of a [str | None] value: [None] and the empty string are
    false. *)
Definition truthy (v : option str) : bool :=
  match v with
  | Some (_ :: _) => true
  | _ => false
  end.

(** ** Values found in the cells of a data frame

    With [dtype=str] a cell is a string, or the float NaN for a missing
    value; the two appended columns hold strings or [None]. *)
Inductive pyval :=
| PStr (s : str)
| PNaN
| PNone.

(** [str(v)] *)
Definition py_str (v : pyval) : str :=
  match v with
  | PStr s => s
  | PNaN => lit "nan"
  | PNone => lit "None"
  end.

Definition of_qid (q : option str) : pyval :=
  match q with
  | Some s => PStr s
  | None => PNone
  end.

(** [v.notna()] *)
Definition notna (v : pyval) : bool :=
  match v with
  | PStr _ => true
  | _ => false
  end.

(** ** Config *)

Definition INPUT_FILE : str := lit "ELTeC-pol_metadata.tsv".
Definition OUTPUT_FILE : str := lit "ELTeC-pol_metadata_wikidata.tsv".
Definition SPARQL_URL : str := lit "https://query.wikidata.org/sparql".
Definition HEADERS : list (str * str) :=
  [(lit "User-Agent", lit "ELTeC-enrichment/1.0 (research project)")].
Definition LABEL_LANG : str := lit "pl".
Definition DELAY : QArith_base.Q := QArith_base.Qmake 1 2.   (* seconds *)

(** ** The interpreter's Unicode character database

    Outside ASCII the white space characters ([str.isspace], [\s]) and the
    decimal digits (category Nd, [\d]) depend on the Unicode version of the
    interpreter; inside ASCII both classes are fixed. *)
Class Unicode := {
  uni_space : N -> bool;
  uni_decimal : N -> bool
}.

Section Helpers.

Context `{Unicode}.

Definition isspace (c : N) : bool :=
  if c <? 128
  then ((9 <=? c) && (c <=? 13)) || ((28 <=? c) && (c <=? 32))
  else uni_space c.

Definition isdecimal (c : N) : bool :=
  if c <? 128 then (48 <=? c) && (c <=? 57) else uni_decimal c.

(** *** Helpers *)

(** [re.match(r"viaf\.org/viaf/(\d+)", s)]: the literal, then the longest
    run of digits, which must not be empty; the result is group 1. *)
Definition viaf_match_at (s : str) : option str :=
  match after_prefix (lit "viaf.org/viaf/") s with
  | Some r =>
      match take_while isdecimal r with
      | [] => None
      | d => Some d
      end
  | None => None
  end.

(** [re.search(r"viaf\.org/viaf/(\d+)", s)]: the match at the leftmost
    position that has one. *)
Fixpoint viaf_search (s : str) : option str :=
  match viaf_match_at s with
  | Some d => Some d
  | None =>
      match s with
      | [] => None
      | _ :: r => viaf_search r
      end
  end.

Definition extract_viaf_id (url : pyval) : option str :=
  match url with
  | PStr u =>
      if bool_decide (strip isspace u ∈ [lit ""; lit "NA"]) then None
      else viaf_search u
  | _ => None
  end.

Definition is_separator (c : N) : bool := (c =? 58) || (c =? 59).   (* : ; *)

(** Does [\s*[:;]] match at the start of [s]?  (The [\s*] that ends the
    pattern of [normalize_title] matches whatever follows.) *)
Fixpoint separator_at (s : str) : bool :=
  match s with
  | [] => false
  | c :: r =>
      if is_separator c then true
      else if isspace c then separator_at r
      else false
  end.

(** [re.split(r"\s*[:;]\s*", s)[0]]: the part of [s] before the leftmost
    match of the pattern, all of [s] when there is no match. *)
Fixpoint split_head (s : str) : str :=
  match s with
  | [] => []
  | c :: r => if separator_at s then [] else c :: split_head r
  end.

Definition is_trim_char (c : N) : bool :=
  (c =? 32) || (c =? 46) || (c =? 44).                     (* " .," *)

Definition normalize_title (title : str) : str :=
  (* Cut at common subtitle separators *)
  let title := split_head title in
  (* Remove trailing punctuation *)
  let title := strip is_trim_char title in
  title.

End Helpers.

(** ** The outside world *)

(** A result binding of the SPARQL JSON format: a dict from variable names
    to RDF terms.  A term is represented by its ["value"] member, which the
    format makes mandatory. *)
Abbreviation Binding := (gmap str str).

(** What [requests.get], [raise_for_status] and the decoding of the body
    give: the bindings list, or the exception that one of them raised
    (given by its [str]). *)
Inductive Response :=
| Bindings (bs : list Binding)
| Failure (e : str).

(** A data frame: the column names and the rows, a cell per column. *)
Record DataFrame := {
  columns : list str;
  data : list (list pyval)
}.

Inductive Invocation :=
| ViafLookup (viaf_id : str)
| TitleLookup (title : str) (author_qid : option str).

(** What a run does to the world, in order.  [Invoke] is not an effect of
    the program: it marks the entry into [viaf_to_wikidata] or
    [title_to_wikidata], as a call interceptor would. *)
Inductive Event :=
| Invoke (c : Invocation)
| HttpGet (url query : str) (resp : Response)
| Print (line : str)
| Sleep (seconds : QArith_base.Q)
| ToCsv (path : str) (df : DataFrame).

(** The endpoint: its answer to a query, which may depend on all that
    happened before. *)
Class Endpoint := {
  respond : list Event -> str -> Response
}.

Inductive exn :=
| KeyError (key : str)
| ValueError (msg : str).

Inductive outcome (A : Type) :=
| Ok (a : A)
| Raise (e : exn).
Arguments Ok {A} a.
Arguments Raise {A} e.

(** Computations: they extend the trace and return or raise. *)
Definition M (A : Type) : Type := list Event -> outcome A * list Event.

Definition ret {A} (a : A) : M A := fun tr => (Ok a, tr).

Definition bind {A B} (m : M A) (k : A -> M B) : M B :=
  fun tr =>
    match m tr with
    | (Ok a, tr') => k a tr'
    | (Raise e, tr') => (Raise e, tr')
    end.

Definition lift {A} (o : outcome A) : M A := fun tr => (o, tr).

Definition emit (e : Event) : M unit := fun tr => (Ok tt, tr ++ [e]).

Notation "'let*' x := m 'in' k" := (bind m (fun x => k))
  (at level 10, x name, m at level 100, k at level 200).
Notation "'let*' ' p := m 'in' k" :=
  (bind m (fun x => match x with p => k end))
  (at level 10, p pattern, m at level 100, k at level 200).
Notation "m ;;; k" := (bind m (fun _ => k))
  (at level 100, k at level 200, right associativity).

Definition print (line : str) : M unit := emit (Print line).
Definition sleep (seconds : QArith_base.Q) : M unit := emit (Sleep seconds).

(** [requests.get(url, params={"query": query, "format": "json"},
    headers=HEADERS, timeout=15)], then [raise_for_status] and the decoding
    of the body. *)
Definition http_get `{Endpoint} (url query : str) : M Response :=
  fun tr => let resp := respond tr query in (Ok resp, tr ++ [HttpGet url query resp]).

Section Program.

Context `{Unicode} `{Endpoint}.

Definition warning (label e : str) : str :=
  lit "  Warning: SPARQL error"
  ++ (match label with [] => [] | _ => lit " for " ++ label end)
  ++ lit ": " ++ e.

Definition sparql_query (query label : str) : M (list Binding) :=
  let* resp := http_get SPARQL_URL query in
  match resp with
  | Bindings bs => ret bs
  | Failure e => print (warning label e) ;;; ret []
  end.

Definition first_qid (bindings : list Binding) (var : str) : outcome (option str) :=
  match bindings with
  | b :: _ =>
      match b !! var with
      | Some uri => Ok (Some (rsplit_last 47 uri))
      | None => Raise (KeyError var)
      end
  | [] => Ok None
  end.

Definition viaf_query (viaf_id : str) : str :=
  [newline]
  ++ lit "    SELECT ?item WHERE {" ++ [newline]
  ++ lit "      ?item wdt:P214 " ++ [quote] ++ viaf_id ++ [quote] ++ lit " ." ++ [newline]
  ++ lit "    } LIMIT 1" ++ [newline]
  ++ lit "    ".

Definition viaf_to_wikidata (viaf_id : str) : M (option str) :=
  emit (Invoke (ViafLookup viaf_id)) ;;;
  let query := viaf_query viaf_id in
  let* bs := sparql_query query viaf_id in
  lift (first_qid bs (lit "item")).

Definition author_query (escaped author_qid : str) : str :=
  [newline]
  ++ lit "        SELECT ?item WHERE {" ++ [newline]
  ++ lit "          ?item rdfs:label " ++ [quote] ++ escaped ++ [quote]
       ++ lit "@" ++ LABEL_LANG ++ lit " ;" ++ [newline]
  ++ lit "                wdt:P50 wd:" ++ author_qid ++ lit " ." ++ [newline]
  ++ lit "        } LIMIT 1" ++ [newline]
  ++ lit "        ".

Definition label_query (escaped : str) : str :=
  [newline]
  ++ lit "    SELECT ?item WHERE {" ++ [newline]
  ++ lit "      ?item rdfs:label " ++ [quote] ++ escaped ++ [quote]
       ++ lit "@" ++ LABEL_LANG ++ lit " ." ++ [newline]
  ++ lit "      ?item wdt:P31/wdt:P279* wd:Q7725634 .   # instance of (subclass of) written work"
       ++ [newline]
  ++ lit "    } LIMIT 1" ++ [newline]
  ++ lit "    ".

Definition full_title_query (full_escaped : str) : str :=
  [newline]
  ++ lit "        SELECT ?item WHERE {" ++ [newline]
  ++ lit "          ?item rdfs:label " ++ [quote] ++ full_escaped ++ [quote]
       ++ lit "@" ++ LABEL_LANG ++ lit " ." ++ [newline]
  ++ lit "          ?item wdt:P31/wdt:P279* wd:Q7725634 ." ++ [newline]
  ++ lit "        } LIMIT 1" ++ [newline]
  ++ lit "        ".

(** The part of [title_to_wikidata] after the author-constrained query. *)
Definition title_fallback (title escaped : str) : M (option str) :=
  (* Label-only query scoped to written-work types (broader fallback) *)
  let query := label_query escaped in
  let* bs := sparql_query query escaped in
  let* result := lift (first_qid bs (lit "item")) in
  if truthy result then ret result
  else
    (* If short title differs from original, also try the full title *)
    let full_escaped := replace_char quote [backslash; quote] title in
    if bool_decide (full_escaped <> escaped) then
      let query := full_title_query full_escaped in
      let* bs := sparql_query query full_escaped in
      lift (first_qid bs (lit "item"))
    else ret result.

Definition title_to_wikidata (title : str) (author_qid : option str) : M (option str) :=
  emit (Invoke (TitleLookup title author_qid)) ;;;
  let short_title := normalize_title title in
  (* Escape any double quotes in the title *)
  let escaped := replace_char quote [backslash; quote] short_title in
  (* Author-constrained query (precise) *)
  match author_qid with
  | Some (c :: q) =>
      let query := author_query escaped (c :: q) in
      let* bs := sparql_query query escaped in
      let* result := lift (first_qid bs (lit "item")) in
      if truthy result then ret result
      else title_fallback title escaped
  | _ => title_fallback title escaped
  end.

(** *** The data frame operations that [main] uses *)

(** A row as [iterrows] yields it: the cells by column name. *)
Definition Series : Type := list (str * pyval).

Definition row_series (df : DataFrame) (row : list pyval) : Series :=
  zip (columns df) row.

Fixpoint series_lookup (row : Series) (key : str) : option pyval :=
  match row with
  | [] => None
  | (k, v) :: r => if bool_decide (k = key) then Some v else series_lookup r key
  end.

(** [row.get(key, default)] *)
Definition series_get (row : Series) (key : str) (default : pyval) : pyval :=
  match series_lookup row key with
  | Some v => v
  | None => default
  end.

(** [row[key]] *)
Definition series_item (row : Series) (key : str) : outcome pyval :=
  match series_lookup row key with
  | Some v => Ok v
  | None => Raise (KeyError key)
  end.

(** The position of a column. *)
Fixpoint column_index (cols : list str) (col : str) : option nat :=
  match cols with
  | [] => None
  | c :: r =>
      if bool_decide (c = col) then Some 0%nat
      else match column_index r col with
           | Some j => Some (S j)
           | None => None
           end
  end.

(** [df[col] = values] for a list of values: an existing column is
    overwritten where it stands, a new one is added after the last. *)
Definition df_setitem (df : DataFrame) (col : str) (values : list pyval)
  : outcome DataFrame :=
  if bool_decide (length values = length (data df)) then
    match column_index (columns df) col with
    | Some j =>
        Ok {| columns := columns df;
              data := zip_with (fun row v => <[j := v]> row) (data df) values |}
    | None =>
        Ok {| columns := columns df ++ [col];
              data := zip_with (fun row v => row ++ [v]) (data df) values |}
    end
  else Raise (ValueError (lit "Length of values does not match length of index")).

(** [df[col]] *)
Definition df_column (df : DataFrame) (col : str) : outcome (list pyval) :=
  match column_index (columns df) col with
  | Some j => Ok (map (fun row => default PNaN (row !! j)) (data df))
  | None => Raise (KeyError col)
  end.

(** [column.notna().sum()] *)
Definition count_notna (column : list pyval) : nat :=
  length (filter (fun v => notna v = true) column).

(** *** Main *)

(** The variables that the loop of [main] updates. *)
Record LoopState := {
  author_cache : gmap str (option str);   (* viaf_id -> QID *)
  work_cache : gmap str (option str);     (* title str -> QID *)
  author_qids : list (option str);
  work_qids : list (option str)
}.

Definition initial_state : LoopState :=
  {| author_cache := ∅; work_cache := ∅; author_qids := []; work_qids := [] |}.

(** [cache[key]] *)
Definition cache_item (cache : gmap str (option str)) (key : str)
  : outcome (option str) :=
  match cache !! key with
  | Some v => Ok v
  | None => Raise (KeyError key)
  end.

(** [cache.get(key)] *)
Definition cache_get (cache : gmap str (option str)) (key : str) : option str :=
  match cache !! key with
  | Some v => v
  | None => None
  end.

(** The author part of the loop body: the caches after it and the
    author's QID. *)
Definition resolve_author (row_num : str) (row : Series)
    (cache : gmap str (option str)) : M (gmap str (option str) * option str) :=
  let author_viaf := extract_viaf_id (series_get row (lit "author-ids") (PStr [])) in
  let* cache :=
    match author_viaf with
    | Some (c :: v) =>
        if bool_decide (is_Some (cache !! (c :: v))) then ret cache
        else
          let* name := lift (series_item row (lit "author-name")) in
          print (row_num ++ lit " Author VIAF " ++ (c :: v) ++ lit "  "
                 ++ [arrow] ++ lit " " ++ py_str name) ;;;
          let* qid := viaf_to_wikidata (c :: v) in
          sleep DELAY ;;;
          ret (<[c :: v := qid]> cache)
    | _ => ret cache
    end in
  let author_qid :=
    match author_viaf with
    | Some (c :: v) => cache_get cache (c :: v)
    | _ => None
    end in
  ret (cache, author_qid).

(** The work part of the loop body: the cache after it and the value
    appended to [work_qids]. *)
Definition resolve_work (row_num : str) (row : Series) (author_qid : option str)
    (cache : gmap str (option str)) : M (gmap str (option str) * option str) :=
  let work_viaf := extract_viaf_id (series_get row (lit "title-ids") (PStr [])) in
  let title := strip isspace (py_str (series_get row (lit "title") (PStr []))) in
  match work_viaf with
  | Some (c :: v) =>
      (* Prefer VIAF when available *)
      let cache_key := lit "viaf:" ++ (c :: v) in
      let* cache :=
        if bool_decide (is_Some (cache !! cache_key)) then ret cache
        else
          print (row_num ++ lit " Work VIAF " ++ (c :: v) ++ lit "  "
                 ++ [arrow] ++ lit " " ++ take 60 title) ;;;
          let* qid := viaf_to_wikidata (c :: v) in
          sleep DELAY ;;;
          ret (<[cache_key := qid]> cache) in
      let* qid := lift (cache_item cache cache_key) in
      ret (cache, qid)
  | _ =>
      if bool_decide (title <> [] /\ title <> lit "nan") then
        (* Fall back to title label search *)
        let cache_key := lit "title:" ++ title in
        let* cache :=
          if bool_decide (is_Some (cache !! cache_key)) then ret cache
          else
            print (row_num ++ lit " Work title search " ++ [arrow] ++ lit " "
                   ++ take 60 title) ;;;
            let* qid := title_to_wikidata title author_qid in
            sleep DELAY ;;;
            ret (<[cache_key := qid]> cache) in
        let* qid := lift (cache_item cache cache_key) in
        ret (cache, qid)
      else ret (cache, None)
  end.

(** The body of the loop, for the row of index [i] of a frame of [n]
    rows. *)
Definition loop_body (n i : nat) (row : Series) (st : LoopState) : M LoopState :=
  let row_num := lit "[" ++ str_of_nat (i + 1) ++ lit "/" ++ str_of_nat n ++ lit "]" in
  (* Author (unchanged: VIAF lookup) *)
  let* '(acache, author_qid) := resolve_author row_num row (author_cache st) in
  (* Work: VIAF first, then title lookup *)
  let* '(wcache, work_qid) := resolve_work row_num row author_qid (work_cache st) in
  ret {| author_cache := acache;
         work_cache := wcache;
         author_qids := author_qids st ++ [author_qid];
         work_qids := work_qids st ++ [work_qid] |}.

Fixpoint loop (n i : nat) (rows : list Series) (st : LoopState) : M LoopState :=
  match rows with
  | [] => ret st
  | row :: rest =>
      let* st := loop_body n i row st in
      loop n (S i) rest st
  end.

(** [main], given the frame that [pd.read_csv(INPUT_FILE, sep="\t",
    dtype=str)] returned. *)
Definition main (df : DataFrame) : M unit :=
  let n := length (data df) in
  print (lit "Loaded " ++ str_of_nat n ++ lit " rows.") ;;;
  let* st := loop n 0 (map (row_series df) (data df)) initial_state in
  let* df := lift (df_setitem df (lit "author_wikidata_id") (map of_qid (author_qids st))) in
  let* df := lift (df_setitem df (lit "work_wikidata_id") (map of_qid (work_qids st))) in
  emit (ToCsv OUTPUT_FILE df) ;;;
  print ([newline] ++ lit "Done. Results saved to '" ++ OUTPUT_FILE ++ lit "'.") ;;;
  let* authors := lift (df_column df (lit "author_wikidata_id")) in
  let found_authors := count_notna authors in
  let* works := lift (df_column df (lit "work_wikidata_id")) in
  let found_works := count_notna works in
  print (lit "Authors matched: " ++ str_of_nat found_authors ++ lit "/"
         ++ str_of_nat (length (data df))) ;;;
  print (lit "Works   matched: " ++ str_of_nat found_works ++ lit "/"
         ++ str_of_nat (length (data df))).

End Program.

(** ** Sample worlds, used to run the program on concrete inputs *)

(** An interpreter whose only white space and digits are the ASCII ones. *)
Definition ascii_unicode : Unicode :=
  {| uni_space := fun _ => false; uni_decimal := fun _ => false |}.

(** An endpoint that finds nothing, whatever the query. *)
Definition empty_endpoint : Endpoint :=
  {| respond := fun _ _ => Bindings [] |}.

(** Wikidata as the end-to-end scenario of the specification has it: the
    author 12345 is Q1, the work 77 is Q7, "Lalka" by Q1 is Q2, and nothing
    else is found. *)
Definition entity (qid : string) : Response :=
  Bindings [{[ lit "item" := lit "http://www.wikidata.org/entity/" ++ lit qid ]}].

Definition sample_endpoint : Endpoint :=
  {| respond := fun _ q =>
       if bool_decide (q = viaf_query (lit "12345")) then entity "Q1"
       else if bool_decide (q = viaf_query (lit "77")) then entity "Q7"
       else if bool_decide (q = author_query (lit "Lalka") (lit "Q1")) then entity "Q2"
       else Bindings [] |}.


Definition sample_columns : list str :=
  [lit "author-name"; lit "author-ids"; lit "title"; lit "title-ids"].

(** Three rows: a work found by its title, a row with nothing to find, and
    a work that has an external identifier, by the author of the first. *)
Definition sample_frame : DataFrame :=
  {| columns := sample_columns;
     data :=
       [ [PStr (lit "Prus, Boleslaw"); PStr (lit "https://viaf.org/viaf/12345/");
          PStr (lit "Lalka"); PNaN];
         [PStr (lit "Anonim"); PStr (lit "https://viaf.org/viaf/999/");
          PNaN; PNaN];
         [PStr (lit "Prus, Boleslaw"); PStr (lit "https://viaf.org/viaf/12345/");
          PStr (lit "Faraon"); PStr (lit "https://viaf.org/viaf/77/")] ] |}.

(** One row, whose title has a subtitle and is not found. *)
Definition subtitle_frame : DataFrame :=
  {| columns := sample_columns;
     data := [ [PStr (lit "Prus, Boleslaw"); PNaN; PStr (lit "Lalka: powiesc"); PNaN] ] |}.

(** A frame that already has a column of the name of an output column. *)
Definition enriched_frame : DataFrame :=
  {| columns := [lit "title"; lit "author_wikidata_id"];
     data := [ [PNaN; PStr (lit "Q1")] ] |}.

(** The first two rows of the sample frame, and the state and the history
    of the run when the loop is done with them. *)
Definition sample_done : list (list pyval) := take 2 (data sample_frame).

Definition sample_third : list pyval :=
  [PStr (lit "Prus, Boleslaw"); PStr (lit "https://viaf.org/viaf/12345/");
   PStr (lit "Faraon"); PStr (lit "https://viaf.org/viaf/77/")].

Definition sample_midway : outcome LoopState * list Event :=
  @loop ascii_unicode sample_endpoint 3 0
    (map (row_series sample_frame) sample_done) initial_state
    [Print (lit "Loaded " ++ str_of_nat 3 ++ lit " rows.")].

Definition sample_state : LoopState :=
  match sample_midway.1 with
  | Ok st => st
  | Raise _ => initial_state
  end.

(** The loop on the third row, from that state and history, and the state
    at its end. *)
Definition sample_final : outcome LoopState * list Event :=
  @loop ascii_unicode sample_endpoint 3 2
    [row_series sample_frame sample_third] sample_state sample_midway.2.

Definition sample_final_state : LoopState :=
  match sample_final.1 with
  | Ok st => st
  | Raise _ => initial_state
  end.

(** A frame without the column of the author names. *)
Definition nameless_frame : DataFrame :=
  {| columns := [lit "author-ids"; lit "title"];
     data := [ [PStr (lit "https://viaf.org/viaf/12345/"); PStr (lit "Lalka")] ] |}.

(** The first row of the sample frame, and the loop body run on it from the
    start. *)
Definition sample_first : Series :=
  row_series sample_frame
    [PStr (lit "Prus, Boleslaw"); PStr (lit "https://viaf.org/viaf/12345/");
     PStr (lit "Lalka"); PNaN].

Definition sample_step : outcome LoopState * list Event :=
  @loop_body ascii_unicode sample_endpoint 3 0 sample_first initial_state [].

Definition sample_step_state : LoopState :=
  match sample_step.1 with
  | Ok st => st
  | Raise _ => initial_state
  end.

(** ** Specification-level definitions *)

(** The title normalizer as the comments of the source describe it: cut at
    the first separator, then remove _trailing_ punctuation only. *)
Definition normalize_title_trailing `{Unicode} (title : str) : str :=
  rstrip is_trim_char (split_head title).

(** [s] starts with a match of [viaf\.org/viaf/(\d+)] whose group 1 is
    [d]: the literal, then the digits [d], as many as there are. *)
Definition viaf_match `{Unicode} (s d : str) : Prop :=
  exists post,
    s = lit "viaf.org/viaf/" ++ d ++ post
    /\ d <> []
    /\ Forall (fun c => isdecimal c = true) d
    /\ (forall c, head post = Some c -> isdecimal c = false).

(** A title as it is written between the quotes of a query. *)
Definition escape (title : str) : str :=
  replace_char quote [backslash; quote] title.

(** *** The queries of the specification

    A query selects the entities [?item] that satisfy a pattern and is
    limited to one result.  The pattern is given by its lines, which the
    template sets two columns to the right of its own margin. *)
Definition select_item (margin : str) (pattern : list str) : str :=
  [newline]
  ++ margin ++ lit "SELECT ?item WHERE {" ++ [newline]
  ++ concat (map (fun line => margin ++ lit "  " ++ line ++ [newline]) pattern)
  ++ margin ++ lit "} LIMIT 1" ++ [newline]
  ++ margin.

(** The external identifier (P214) of the entity is [viaf_id]. *)
Definition has_external_id (viaf_id : str) : str :=
  lit "?item wdt:P214 " ++ [quote] ++ viaf_id ++ [quote].

(** The label of the entity, in the configured language, is exactly
    [title]. *)
Definition has_label (title : str) : str :=
  lit "?item rdfs:label " ++ [quote] ++ escape title ++ [quote]
  ++ lit "@" ++ LABEL_LANG.

(** The creator (P50) of the entity is the entity [author_qid]. *)
Definition created_by (author_qid : str) : str :=
  lit "wdt:P50 wd:" ++ author_qid.

(** The type of the entity (P31) is a written work (Q7725634), or a
    subclass of it through any number of P279 steps. *)
Definition is_written_work : str :=
  lit "?item wdt:P31/wdt:P279* wd:Q7725634".

(** The query of the author resolution (4.4): the entity whose external
    identifier is the given one. *)
Definition external_id_query (viaf_id : str) : str :=
  select_item (lit "    ") [has_external_id viaf_id ++ lit " ."].

(** The query of step 2: the label is the title and the creator is the
    author. *)
Definition author_constrained_query (title author_qid : str) : str :=
  select_item (lit "        ")
    [has_label title ++ lit " ;";
     lit "      " ++ created_by author_qid ++ lit " ."].

(** The query of steps 3 and 4: the label is the title and the type is a
    written work.  The layouts of the two steps differ by the margin and by
    a remark after the type line. *)
Definition type_scoped_query (margin remark title : str) : str :=
  select_item margin
    [has_label title ++ lit " ."; is_written_work ++ lit " ." ++ remark].

(** *** The steps of the specification *)

(** The trailing path segment of a URI: what follows its last slash. *)
Fixpoint trailing_segment_from (segment uri : str) : str :=
  match uri with
  | [] => segment
  | c :: rest =>
      if c =? 47 then trailing_segment_from [] rest
      else trailing_segment_from (segment ++ [c]) rest
  end.

Definition trailing_segment (uri : str) : str := trailing_segment_from [] uri.

(** The first match of a response: the entity identifier of its first
    result, which is the trailing path segment of the URI bound to [item];
    absent when the result list is empty or the request failed. *)
Definition first_entity (resp : Response) : outcome (option str) :=
  match resp with
  | Bindings (b :: _) =>
      match b !! lit "item" with
      | Some uri => Ok (Some (trailing_segment uri))
      | None => Raise (KeyError (lit "item"))
      end
  | Bindings [] => Ok None
  | Failure _ => Ok None
  end.

(** A step of a chain: send the query, with the warning of 4.3 when the
    request fails, and take the first match. *)
Definition chain_step `{Endpoint} (query label : str) : M (option str) :=
  fun tr =>
    let resp := respond tr query in
    (first_entity resp,
     tr ++ HttpGet SPARQL_URL query resp
        :: match resp with
           | Failure e => [Print (warning label e)]
           | Bindings _ => []
           end).
Arguments chain_step : simpl never.


(** The same chain, except that when no step succeeds the result is what
    the last step gave ([last] when there was no step). *)
Fixpoint first_success_or_last (last : option str) (steps : list (M (option str)))
  : M (option str) :=
  match steps with
  | [] => ret last
  | step :: rest =>
      let* r := step in
      if truthy r then ret r else first_success_or_last r rest
  end.

(** The steps 2 to 4 of the work resolution (4.5), in order: the
    author-constrained query for the normalized title when an author
    identifier is known; the type-scoped query for the normalized title;
    the type-scoped query for the original title when the normalized title
    differs from it. *)
Definition title_steps `{Unicode} `{Endpoint}
    (title : str) (author_qid : option str) : list (M (option str)) :=
  let normalized := normalize_title title in
  match author_qid with
  | Some (c :: q) =>
      [chain_step (author_constrained_query normalized (c :: q)) (escape normalized)]
  | _ => []
  end
  ++ [chain_step
        (type_scoped_query (lit "    ")
           (lit "   # instance of (subclass of) written work") normalized)
        (escape normalized)]
  ++ (if bool_decide (normalized <> title)
      then [chain_step (type_scoped_query (lit "        ") [] title) (escape title)]
      else []).

(** The queries of these steps, in the same order. *)
Definition title_candidates `{Unicode} (title : str) (author_qid : option str)
  : list str :=
  let normalized := normalize_title title in
  match author_qid with
  | Some (c :: q) => [author_constrained_query normalized (c :: q)]
  | _ => []
  end
  ++ [type_scoped_query (lit "    ")
        (lit "   # instance of (subclass of) written work") normalized]
  ++ (if bool_decide (normalized <> title)
      then [type_scoped_query (lit "        ") [] title]
      else []).



(** Run a query and take the first match, as the resolvers do. *)
Definition first_match `{Endpoint} (query label : str) : M (option str) :=
  let* bs := sparql_query query label in
  lift (first_qid bs (lit "item")).

(** The identifier that a response resolves to: the first match, absent
    when the bindings list is empty or the request failed. *)
Definition response_qid `{Endpoint} (resp : Response) : outcome (option str) :=
  match resp with
  | Bindings bs => first_qid bs (lit "item")
  | Failure _ => Ok None
  end.

(** The resolver calls of a trace, in order. *)
Definition resolutions (tr : list Event) : list Invocation :=
  omap (fun e => match e with Invoke c => Some c | _ => None end) tr.

(** The lookup keys of the pipeline driver (4.6): an external identifier,
    or a title. *)
Inductive LookupKey :=
| ViafKey (viaf_id : str)
| TitleKey (title : str).

Global Instance LookupKey_eq_dec : EqDecision LookupKey.
Proof. solve_decision. Defined.

(** The key under which the work cache holds a lookup. *)
Definition cache_key (k : LookupKey) : str :=
  match k with
  | ViafKey v => lit "viaf:" ++ v
  | TitleKey t => lit "title:" ++ t
  end.

(** What a resolver call looks up. *)
Definition lookup_key (c : Invocation) : LookupKey :=
  match c with
  | ViafLookup v => ViafKey v
  | TitleLookup t _ => TitleKey t
  end.

(** The author external identifier of a row, if it has one. *)
Definition author_key `{Unicode} (row : Series) : option str :=
  match extract_viaf_id (series_get row (lit "author-ids") (PStr [])) with
  | Some (c :: v) => Some (c :: v)
  | _ => None
  end.

(** The title of a row, as [main] reads it. *)
Definition row_title `{Unicode} (row : Series) : str :=
  strip isspace (py_str (series_get row (lit "title") (PStr []))).

(** The work lookup key of a row: tagged by the work external identifier
    when the row has one; else tagged by the title when there is a title
    and it is not the text of a missing value; else no lookup is made. *)
Definition work_key `{Unicode} (row : Series) : option LookupKey :=
  match extract_viaf_id (series_get row (lit "title-ids") (PStr [])) with
  | Some (c :: v) => Some (ViafKey (c :: v))
  | _ =>
      let title := row_title row in
      if bool_decide (title <> [] /\ title <> lit "nan")
      then Some (TitleKey title)
      else None
  end.

(** The distinct lookups that a list of rows asks for: one per distinct
    author identifier and one per distinct work key. *)
Definition distinct_lookups `{Unicode} (rows : list Series) : list LookupKey :=
  map ViafKey (remove_dups (omap author_key rows))
  ++ remove_dups (omap work_key rows).

(** The rows of a frame, as the loop of [main] sees them. *)
Definition frame_rows (df : DataFrame) : list Series :=
  map (row_series df) (data df).

(** What the loop appends for a row, given the caches at the end: the
    cached resolution of the row's key, absent for a row without key. *)
Definition author_out `{Unicode} (cache : gmap str (option str)) (row : Series)
  : option str :=
  match author_key row with
  | Some v => cache_get cache v
  | None => None
  end.

Definition work_out `{Unicode} (cache : gmap str (option str)) (row : Series)
  : option str :=
  match work_key row with
  | Some k => cache_get cache (cache_key k)
  | None => None
  end.

(** The state of the loop after the rows [seen]: the caches hold the keys
    of these rows and no other, and the two lists hold, row by row, the
    cached resolutions. *)
Record loop_inv `{Unicode} (seen : list Series) (st : LoopState) : Prop := {
  inv_authors : forall v, is_Some (author_cache st !! v) <-> v ∈ omap author_key seen;
  inv_works : forall k, is_Some (work_cache st !! cache_key k) <-> k ∈ omap work_key seen;
  inv_author_qids : author_qids st = map (author_out (author_cache st)) seen;
  inv_work_qids : work_qids st = map (work_out (work_cache st)) seen
}.

(** The lookups that a row adds to those of the rows before it. *)
Definition new_lookups `{Unicode} (seen : list Series) (row : Series)
  : list LookupKey :=
  match author_key row with
  | Some v => if decide (v ∈ omap author_key seen) then [] else [ViafKey v]
  | None => []
  end
  ++ match work_key row with
     | Some k => if decide (k ∈ omap work_key seen) then [] else [k]
     | None => []
     end.

(** *** The resolution behind a recorded identifier *)

(** The number of the row of index [i], of [n] rows, as the messages of the
    loop show it. *)
Definition row_label (i n : nat) : str :=
  lit "[" ++ str_of_nat (i + 1) ++ lit "/" ++ str_of_nat n ++ lit "]".

(** The message that announces the resolution of an author identifier at
    the row of index [j], and the one that announces a work resolution. *)
Definition author_line (n j : nat) (v : str) (name : pyval) : str :=
  row_label j n ++ lit " Author VIAF " ++ v ++ lit "  " ++ [arrow] ++ lit " "
  ++ py_str name.

Definition work_line `{Unicode} (n j : nat) (k : LookupKey) (row : Series) : str :=
  match k with
  | ViafKey v =>
      row_label j n ++ lit " Work VIAF " ++ v ++ lit "  " ++ [arrow] ++ lit " "
      ++ take 60 (row_title row)
  | TitleKey title =>
      row_label j n ++ lit " Work title search " ++ [arrow] ++ lit " "
      ++ take 60 title
  end.

(** A resolver call, run. *)
Definition run_resolver `{Unicode} `{Endpoint} (c : Invocation) : M (option str) :=
  match c with
  | ViafLookup v => viaf_to_wikidata v
  | TitleLookup title author_qid => title_to_wikidata title author_qid
  end.

(** Among the events [d] that a run added to the history [tr], the message
    [line] announces the resolver call [c]; the call, made at that point of
    the history, returned [q], and a pause follows its events. *)
Definition resolved_at `{Unicode} `{Endpoint} (tr d : list Event) (line : str)
    (c : Invocation) (q : option str) : Prop :=
  exists pre events post,
    d = pre ++ Print line :: Invoke c :: events ++ Sleep DELAY :: post
    /\ run_resolver c (tr ++ pre ++ [Print line])
       = (Ok q, tr ++ pre ++ Print line :: Invoke c :: events).

(** The author identifier [v] was resolved at one of the first [bound]
    rows, a row with this identifier, and the resolution returned [q]. *)
Definition author_resolution `{Unicode} `{Endpoint} (n : nat) (rows : list Series)
    (tr d : list Event) (bound : nat) (v : str) (q : option str) : Prop :=
  exists j row name,
    (j < bound)%nat
    /\ rows !! j = Some row
    /\ author_key row = Some v
    /\ series_item row (lit "author-name") = Ok name
    /\ resolved_at tr d (author_line n j v name) (ViafLookup v) q.

(** The work key [k] was resolved at one of the first [bound] rows, a row
    with this key, by a resolver call for this key that returned [q]. *)
Definition work_resolution `{Unicode} `{Endpoint} (n : nat) (rows : list Series)
    (tr d : list Event) (bound : nat) (k : LookupKey) (q : option str) : Prop :=
  exists j row c,
    (j < bound)%nat
    /\ rows !! j = Some row
    /\ work_key row = Some k
    /\ lookup_key c = k
    /\ resolved_at tr d (work_line n j k row) c q.

(** What the run resolved for the author of the row of index [i]: the
    result of the resolution of the row's identifier, made at this row or
    at a row before it; absent for a row without identifier.  The same for
    the work of the row. *)
Definition author_result `{Unicode} `{Endpoint} (n : nat) (rows : list Series)
    (tr d : list Event) (i : nat) (q : option str) : Prop :=
  match rows !! i with
  | Some row =>
      match author_key row with
      | Some v => author_resolution n rows tr d (S i) v q
      | None => q = None
      end
  | None => False
  end.

Definition work_result `{Unicode} `{Endpoint} (n : nat) (rows : list Series)
    (tr d : list Event) (i : nat) (q : option str) : Prop :=
  match rows !! i with
  | Some row =>
      match work_key row with
      | Some k => work_resolution n rows tr d (S i) k q
      | None => q = None
      end
  | None => False
  end.

(** The state of the loop after [len] rows of [rows], [d] being what the
    run has added to the history [tr]: every cached result is the result
    of a resolution made at one of these rows, and the two lists hold, row
    by row, what was resolved for the row. *)
Record resolved_inv `{Unicode} `{Endpoint} (n : nat) (rows : list Series)
    (tr : list Event) (len : nat) (st : LoopState) (d : list Event) : Prop := {
  inv_author_resolutions : forall v q,
    author_cache st !! v = Some q -> author_resolution n rows tr d len v q;
  inv_work_resolutions : forall k q,
    work_cache st !! cache_key k = Some q -> work_resolution n rows tr d len k q;
  inv_author_length : length (author_qids st) = len;
  inv_work_length : length (work_qids st) = len;
  inv_author_results : forall i a,
    author_qids st !! i = Some a -> author_result n rows tr d i a;
  inv_work_results : forall i w,
    work_qids st !! i = Some w -> work_result n rows tr d i w
}.

(** The queries of the title matching. *)
Definition title_query (q : str) : Prop :=
  (exists escaped author_qid, q = author_query escaped author_qid)
  \/ (exists escaped, q = label_query escaped)
  \/ (exists escaped, q = full_title_query escaped).

(** Events of the external-identifier path only: no call of
    [title_to_wikidata], and no query but the external-identifier one. *)
Definition viaf_only (e : Event) : Prop :=
  match e with
  | Invoke (TitleLookup _ _) => False
  | HttpGet _ q _ => (exists v, q = viaf_query v) /\ ~ title_query q
  | _ => True
  end.

(** Every resolution that the work cache holds under an
    external-identifier key is the answer to an external-identifier query
    of the history. *)
Definition viaf_provenance `{Endpoint} (tr : list Event)
    (cache : gmap str (option str)) : Prop :=
  forall v q,
    cache !! cache_key (ViafKey v) = Some q ->
    exists resp,
      HttpGet SPARQL_URL (viaf_query v) resp ∈ tr /\ response_qid resp = Ok q.

(** A cell of an identifier column: the identifier when there is one, a
    missing value when it is absent. *)
Definition cell_of (q : option str) (cell : pyval) : Prop :=
  match q with
  | Some qid => cell = PStr qid
  | None => notna cell = false
  end.

(** The written frame [out], for the input [df] and a run that added the
    events [d] to the history [tr]: it has the columns of the input and,
    after them, the two identifier columns; it has the rows of the input,
    in their order, each with two more cells after those of the input,
    first what the run resolved for the author of the row, then what it
    resolved for its work. *)
Definition output_extends_input `{Unicode} `{Endpoint} (df : DataFrame)
    (tr d : list Event) (out : DataFrame) : Prop :=
  columns out = columns df ++ [lit "author_wikidata_id"; lit "work_wikidata_id"]
  /\ length (data out) = length (data df)
  /\ forall i row,
       data df !! i = Some row ->
       exists a w author_cell work_cell,
         author_result (length (data df)) (frame_rows df) tr d i a
         /\ work_result (length (data df)) (frame_rows df) tr d i w
         /\ cell_of a author_cell
         /\ cell_of w work_cell
         /\ data out !! i = Some (row ++ [author_cell; work_cell]).

(** Rate limiting as the specification has it: after a network call, a
    pause comes before the next network call.  [pending] says that a call
    was made and no pause since. *)
Fixpoint paced (pending : bool) (tr : list Event) : bool :=
  match tr with
  | [] => true
  | HttpGet _ _ _ :: rest => if pending then false else paced true rest
  | Sleep _ :: rest => paced false rest
  | _ :: rest => paced pending rest
  end.

(** [m] only appends to the trace, and what it appends satisfies [P]. *)
Definition adds {A} (P : Event -> Prop) (m : M A) : Prop :=
  forall tr, exists d, (m tr).2 = tr ++ d /\ Forall P d.

(** Events that are not resolver calls. *)
Definition plain (e : Event) : Prop :=
  match e with
  | Invoke _ => False
  | _ => True
  end.

(** Queries and warnings. *)
Definition query_event (e : Event) : Prop :=
  match e with
  | HttpGet _ _ _ | Print _ => True
  | _ => False
  end.

(** A call of [viaf_to_wikidata] is made with a digit string that is not
    empty. *)
Definition digit_lookup `{Unicode} (e : Event) : Prop :=
  match e with
  | Invoke (ViafLookup v) => v <> [] /\ Forall (fun c => isdecimal c = true) v
  | _ => True
  end.

(** What the loop does: calls with digit strings, queries, messages and
    pauses; it writes no file. *)
Definition loop_event `{Unicode} (e : Event) : Prop :=
  match e with
  | ToCsv _ _ => False
  | _ => digit_lookup e
  end.

(** The queries sent in a trace and the pauses made in it, in order. *)
Definition queries (tr : list Event) : list str :=
  omap (fun e => match e with HttpGet _ q _ => Some q | _ => None end) tr.

Definition pauses (tr : list Event) : list QArith_base.Q :=
  omap (fun e => match e with Sleep s => Some s | _ => None end) tr.

(** The account of a computation that returned or raised [o] after adding
    [d] to the trace: every pause lasts [DELAY], there are no more pauses
    than resolver calls, and as many when the computation returned. *)
Definition tally {A} (o : outcome A) (d : list Event) : Prop :=
  Forall (fun s => s = DELAY) (pauses d)
  /\ (length (pauses d) <= length (resolutions d))%nat
  /\ (forall a, o = Ok a -> length (pauses d) = length (resolutions d)).

Definition tallied {A} (m : M A) : Prop :=
  forall tr, exists d, (m tr).2 = tr ++ d /\ tally (m tr).1 d.

(** A computation that returns, whatever the history. *)
Definition safe {A} (m : M A) : Prop :=
  forall tr, exists a tr', m tr = (Ok a, tr').

(** An endpoint whose results bind the variable [item]. *)
Definition binds_item `{Endpoint} : Prop :=
  forall tr q b bs, respond tr q = Bindings (b :: bs) -> is_Some (b !! lit "item").

(** A frame is rectangular: every row has a cell for every column. *)
Definition rectangular (df : DataFrame) : Prop :=
  Forall (fun row => length row = length (columns df)) (data df).

(** An endpoint that finds nothing: every request fails or has no
    result. *)
Definition finds_nothing `{Endpoint} : Prop :=
  forall tr q, respond tr q = Bindings [] \/ exists e, respond tr q = Failure e.

(** [part] occurs in [s]. *)
Definition contains (s part : str) : Prop :=
  exists a b, s = a ++ part ++ b.

(** * Properties *)

Section Pure.

Context `{Unicode}.

(** ** Stripping *)

Lemma drop_while_idem p s : drop_while p (drop_while p s) = drop_while p s.
Proof.
  induction s as [|c r IH]; simpl; [done|].
  destruct (p c) eqn:E; [done|]. simpl. by rewrite E.
Qed.

Lemma drop_while_snoc p s c :
  p c = false -> drop_while p (s ++ [c]) = drop_while p s ++ [c].
Proof.
  intros Hc. induction s as [|a r IH]; simpl.
  - by rewrite Hc.
  - destruct (p a); [exact IH | done].
Qed.

Lemma rstrip_cons p c s : p c = false -> rstrip p (c :: s) = c :: rstrip p s.
Proof.
  intros Hc. unfold rstrip. rewrite reverse_cons.
  rewrite drop_while_snoc by done. by rewrite reverse_snoc.
Qed.

Lemma rstrip_idem p s : rstrip p (rstrip p s) = rstrip p s.
Proof. unfold rstrip. by rewrite reverse_involutive, drop_while_idem. Qed.

Lemma drop_while_head p s :
  drop_while p s = [] \/ exists c r, drop_while p s = c :: r /\ p c = false.
Proof.
  induction s as [|c r IH]; simpl; [by left|].
  destruct (p c) eqn:E; [exact IH|]. right. by exists c, r.
Qed.

Lemma strip_idem p s : strip p (strip p s) = strip p s.
Proof.
  unfold strip, lstrip.
  destruct (drop_while_head p s) as [-> | (c & r & -> & Hc)].
  - reflexivity.
  - rewrite rstrip_cons by done. simpl. rewrite Hc.
    rewrite <- (rstrip_cons p c r) by done. apply rstrip_idem.
Qed.

Lemma drop_while_elem p s c : c ∈ drop_while p s -> c ∈ s.
Proof.
  induction s as [|a r IH]; simpl; [done|].
  destruct (p a); [|done]. intros Hin. right. by apply IH.
Qed.

Lemma strip_elem p s c : c ∈ strip p s -> c ∈ s.
Proof.
  unfold strip, rstrip, lstrip. rewrite elem_of_reverse. intros Hin.
  apply drop_while_elem in Hin. rewrite elem_of_reverse in Hin.
  by apply drop_while_elem in Hin.
Qed.

Lemma drop_while_filter p s :
  filter (fun c => p c = false) (drop_while p s) = filter (fun c => p c = false) s.
Proof.
  induction s as [|a r IH]; simpl; [done|].
  destruct (p a) eqn:E; [|done].
  rewrite filter_cons_False by (rewrite E; done). exact IH.
Qed.

Lemma strip_filter p s :
  filter (fun c => p c = false) (strip p s) = filter (fun c => p c = false) s.
Proof.
  unfold strip, rstrip, lstrip.
  rewrite <- (drop_while_filter p s).
  rewrite filter_reverse, drop_while_filter, filter_reverse.
  by rewrite reverse_involutive.
Qed.

(** ** The subtitle separator *)

Lemma separator_at_false s :
  Forall (fun c => is_separator c = false) s -> separator_at s = false.
Proof.
  induction 1 as [|c r Hc _ IH]; simpl; [done|].
  rewrite Hc. by destruct (isspace c).
Qed.

Lemma split_head_free s : Forall (fun c => is_separator c = false) (split_head s).
Proof.
  induction s as [|c r IH]; [constructor|].
  change (split_head (c :: r))
    with (if separator_at (c :: r) then [] else c :: split_head r).
  destruct (separator_at (c :: r)) eqn:E; [constructor|].
  constructor; [|exact IH].
  simpl in E. by destruct (is_separator c).
Qed.

Lemma split_head_id s :
  Forall (fun c => is_separator c = false) s -> split_head s = s.
Proof.
  induction 1 as [|c r Hc Hr IH]; [done|].
  change (split_head (c :: r))
    with (if separator_at (c :: r) then [] else c :: split_head r).
  rewrite separator_at_false by (by constructor). by rewrite IH.
Qed.

Lemma normalize_title_free t :
  Forall (fun c => is_separator c = false) (normalize_title t).
Proof.
  unfold normalize_title. apply Forall_forall. intros c Hin.
  apply strip_elem in Hin.
  by apply (proj1 (Forall_forall _ _) (split_head_free t)).
Qed.

(** ** The identifier extractor *)

Lemma after_prefix_app p r : after_prefix p (p ++ r) = Some r.
Proof.
  induction p as [|a p IH]; simpl; [by destruct r|].
  by rewrite N.eqb_refl.
Qed.

Lemma after_prefix_Some p s r : after_prefix p s = Some r -> s = p ++ r.
Proof.
  revert s. induction p as [|a p IH]; intros s; simpl.
  - destruct s; congruence.
  - destruct s as [|c s]; [done|].
    destruct (a =? c) eqn:E; [|done].
    apply N.eqb_eq in E. subst c. intros Hr. by rewrite (IH _ Hr).
Qed.

Lemma take_while_app p d post :
  Forall (fun c => p c = true) d ->
  (forall c, head post = Some c -> p c = false) ->
  take_while p (d ++ post) = d.
Proof.
  intros Hd Hpost. induction Hd as [|c d Hc _ IH]; simpl.
  - destruct post as [|c r]; [done|]. simpl. by rewrite (Hpost c).
  - by rewrite Hc, IH.
Qed.

Lemma take_while_Forall p s : Forall (fun c => p c = true) (take_while p s).
Proof.
  induction s as [|c r IH]; simpl; [constructor|].
  destruct (p c) eqn:E; by constructor.
Qed.

Lemma take_while_split p s :
  exists post, s = take_while p s ++ post /\ forall c, head post = Some c -> p c = false.
Proof.
  induction s as [|c r (post & Hs & Hpost)]; simpl.
  - by exists [].
  - destruct (p c) eqn:E.
    + exists post. split; [simpl; by f_equal|done].
    + exists (c :: r). split; [done|]. simpl. by intros ? [= <-].
Qed.

Lemma viaf_match_at_Some s d : viaf_match_at s = Some d <-> viaf_match s d.
Proof.
  unfold viaf_match_at, viaf_match. split.
  - destruct (after_prefix _ s) as [r|] eqn:E; [|done].
    apply after_prefix_Some in E.
    pose proof (take_while_Forall isdecimal r) as Hd.
    destruct (take_while_split isdecimal r) as (post & Hr & Hpost).
    destruct (take_while isdecimal r) as [|c w] eqn:Ew; [done|].
    intros [= <-]. exists post. by rewrite <- Hr.
  - intros (post & -> & Hne & Hd & Hpost).
    rewrite after_prefix_app, take_while_app by done.
    by destruct d.
Qed.

Lemma viaf_match_at_None s : viaf_match_at s = None <-> forall d, ~ viaf_match s d.
Proof.
  split.
  - intros E d Hm. apply viaf_match_at_Some in Hm. congruence.
  - intros Hno. destruct (viaf_match_at s) as [d|] eqn:E; [|done].
    apply viaf_match_at_Some in E. by destruct (Hno d).
Qed.

Lemma viaf_search_unfold s :
  viaf_search s =
  match viaf_match_at s with
  | Some d => Some d
  | None => match s with [] => None | _ :: r => viaf_search r end
  end.
Proof. by destruct s. Qed.

(** The search returns the match at the leftmost position that has one. *)
Lemma viaf_search_leftmost pre s d :
  viaf_match s d ->
  (forall n d', (n < length pre)%nat -> ~ viaf_match (drop n (pre ++ s)) d') ->
  viaf_search (pre ++ s) = Some d.
Proof.
  intros Hm. induction pre as [|c pre IH]; intros Hleft.
  - rewrite viaf_search_unfold. simpl.
    by rewrite (proj2 (viaf_match_at_Some s d) Hm).
  - rewrite viaf_search_unfold.
    rewrite (proj2 (viaf_match_at_None _)).
    + simpl. apply IH. intros n d' Hn. apply (Hleft (S n) d'). simpl. lia.
    + intros d'. apply (Hleft 0%nat d'). simpl. lia.
Qed.

Lemma viaf_search_None u :
  (forall n d, ~ viaf_match (drop n u) d) -> viaf_search u = None.
Proof.
  induction u as [|c u IH]; intros Hno; rewrite viaf_search_unfold.
  - by rewrite (proj2 (viaf_match_at_None []) (Hno 0%nat)).
  - rewrite (proj2 (viaf_match_at_None (c :: u)) (Hno 0%nat)).
    apply IH. intros n. apply (Hno (S n)).
Qed.

Lemma viaf_search_digits u d :
  viaf_search u = Some d -> d <> [] /\ Forall (fun c => isdecimal c = true) d.
Proof.
  induction u as [|c u IH]; rewrite viaf_search_unfold.
  - destruct (viaf_match_at []) eqn:E; [|done].
    intros [= <-]. apply viaf_match_at_Some in E. destruct E as (? & _ & ? & ? & _). done.
  - destruct (viaf_match_at (c :: u)) eqn:E; [|exact IH].
    intros [= <-]. apply viaf_match_at_Some in E. destruct E as (? & _ & ? & ? & _). done.
Qed.

(** What [extract_viaf_id] returns is a digit string that is not empty. *)
Lemma extract_viaf_id_digits url d :
  extract_viaf_id url = Some d -> d <> [] /\ Forall (fun c => isdecimal c = true) d.
Proof.
  destruct url as [u| |]; simpl; [|done|done].
  case_bool_decide; [done|]. apply viaf_search_digits.
Qed.

(** A string in which the pattern occurs is neither blank nor "NA". *)
Lemma viaf_match_not_placeholder pre s d :
  viaf_match s d -> strip isspace (pre ++ s) ∉ [lit ""; lit "NA"].
Proof.
  intros (post & -> & _) Hin.
  assert (length (filter (fun c => isspace c = false) (strip isspace
            (pre ++ lit "viaf.org/viaf/" ++ d ++ post))) <= 2)%nat as Hle.
  { apply list_elem_of_In in Hin. destruct Hin as [<- | [<- | []]].
    - simpl. lia.
    - etransitivity; [apply length_filter|]. simpl. lia. }
  rewrite strip_filter, !filter_app, !length_app in Hle.
  assert (length (filter (fun c => isspace c = false) (lit "viaf.org/viaf/")) = 14%nat)
    as E by reflexivity.
  lia.
Qed.

(** C6. The identifier extractor returns the digits of the leftmost match of
    the URL pattern [viaf.org/viaf/<digits>] (in particular those of a
    well-formed URL [https://viaf.org/viaf/<digits>/]); it returns absent
    for the empty string, for the placeholder "NA", for a value that is not a
    string and for a text in which the pattern does not occur.  It is total:
    whatever the input, it returns absent or a digit string. *)
Theorem extract_viaf_id_spec :
  (forall pre s d,
      viaf_match s d ->
      (forall n d', (n < length pre)%nat -> ~ viaf_match (drop n (pre ++ s)) d') ->
      extract_viaf_id (PStr (pre ++ s)) = Some d)
  /\ (forall d,
      d <> [] -> Forall (fun c => isdecimal c = true) d ->
      extract_viaf_id (PStr (lit "https://viaf.org/viaf/" ++ d ++ lit "/")) = Some d)
  /\ extract_viaf_id (PStr (lit "")) = None
  /\ extract_viaf_id (PStr (lit "NA")) = None
  /\ extract_viaf_id PNaN = None
  /\ extract_viaf_id PNone = None
  /\ (forall u, (forall n d, ~ viaf_match (drop n u) d) -> extract_viaf_id (PStr u) = None)
  /\ (forall url, extract_viaf_id url = None
                  \/ exists d, extract_viaf_id url = Some d /\ d <> []
                               /\ Forall (fun c => isdecimal c = true) d).
Proof.
  assert (forall pre s d,
      viaf_match s d ->
      (forall n d', (n < length pre)%nat -> ~ viaf_match (drop n (pre ++ s)) d') ->
      extract_viaf_id (PStr (pre ++ s)) = Some d) as Hleft.
  { intros pre s d Hm Hl. simpl.
    rewrite bool_decide_eq_false_2 by by eapply viaf_match_not_placeholder.
    by apply viaf_search_leftmost. }
  split; [exact Hleft|].
  split.
  { intros d Hne Hd.
    change (lit "https://viaf.org/viaf/" ++ d ++ lit "/")
      with (lit "https://" ++ (lit "viaf.org/viaf/" ++ d ++ lit "/")).
    apply Hleft.
    - exists (lit "/"). repeat split; try done.
      intros c [= <-]. reflexivity.
    - intros n d' Hn Hm. apply viaf_match_at_Some in Hm.
      change (length (lit "https://")) with 8%nat in Hn.
      do 8 (destruct n as [|n]; [discriminate Hm|]). lia. }
  split; [reflexivity|]. split; [reflexivity|].
  split; [reflexivity|]. split; [reflexivity|].
  split.
  { intros u Hno. simpl. case_bool_decide; [done|]. by apply viaf_search_None. }
  intros url. destruct (extract_viaf_id url) as [d|] eqn:E; [|by left].
  right. exists d. split; [done|]. by apply (extract_viaf_id_digits url).
Qed.

(** C7. Title normalization is idempotent: normalizing a normalized title
    changes nothing.  "Coningsby: or, The New Generation" normalizes to
    "Coningsby", and "Pan Tadeusz", which has no separator, to itself. *)
Theorem normalize_title_idempotent :
  (forall t, normalize_title (normalize_title t) = normalize_title t)
  /\ normalize_title (lit "Coningsby: or, The New Generation") = lit "Coningsby"
  /\ normalize_title (lit "Pan Tadeusz") = lit "Pan Tadeusz".
Proof.
  split; [|split; reflexivity].
  intros t. unfold normalize_title at 1.
  rewrite split_head_id by apply normalize_title_free.
  unfold normalize_title. apply strip_idem.
Qed.

(** C8. The code departs from the claim: [strip] removes the characters of
    " .," at both ends, so the punctuation that leads a title is lost, where
    the claim (and the comment in the source) has only trailing punctuation
    removed. *)
Theorem normalize_title_strips_leading :
  normalize_title (lit "...Lalka") = lit "Lalka"
  /\ normalize_title_trailing (lit "...Lalka") = lit "...Lalka".
Proof. split; reflexivity. Qed.

(** ** More on the helpers *)

Lemma drop_while_suffix p s : exists a, s = a ++ drop_while p s.
Proof.
  induction s as [|c r (a & IH)]; simpl; [by exists []|].
  destruct (p c); [|by exists []].
  exists (c :: a). simpl. by f_equal.
Qed.

Lemma rstrip_prefix p s : exists b, s = rstrip p s ++ b.
Proof.
  unfold rstrip. destruct (drop_while_suffix p (reverse s)) as (a & E).
  exists (reverse a). rewrite <- reverse_app, <- E. by rewrite reverse_involutive.
Qed.

Lemma split_head_prefix s : exists b, s = split_head s ++ b.
Proof.
  induction s as [|c r (b & IH)]; [by exists []|].
  change (split_head (c :: r))
    with (if separator_at (c :: r) then [] else c :: split_head r).
  destruct (separator_at (c :: r)); [by exists (c :: r)|].
  exists b. simpl. by f_equal.
Qed.

Lemma rstrip_last p s c : last (rstrip p s) = Some c -> p c = false.
Proof.
  unfold rstrip. rewrite last_reverse.
  destruct (drop_while_head p (reverse s)) as [-> | (a & r & -> & Ha)]; [done|].
  simpl. by intros [= <-].
Qed.

Lemma strip_head p s c : head (strip p s) = Some c -> p c = false.
Proof.
  unfold strip, lstrip.
  destruct (drop_while_head p s) as [-> | (a & r & -> & Ha)]; [done|].
  rewrite rstrip_cons by done. simpl. by intros [= <-].
Qed.

(** The normalized title is a piece of the title: nothing is added or
    changed, characters are only cut off at both ends.  It holds no colon
    and no semicolon, and it neither starts nor ends with a space, a full
    stop or a comma. *)
Theorem normalize_title_shape (title : str) :
  (exists a b, title = a ++ normalize_title title ++ b)
  /\ Forall (fun c => c <> 58 /\ c <> 59) (normalize_title title)
  /\ (forall c, head (normalize_title title) = Some c -> c <> 32 /\ c <> 46 /\ c <> 44)
  /\ (forall c, last (normalize_title title) = Some c -> c <> 32 /\ c <> 46 /\ c <> 44).
Proof.
  assert (forall c, is_trim_char c = false -> c <> 32 /\ c <> 46 /\ c <> 44) as Htrim.
  { intros c Hc. unfold is_trim_char in Hc.
    apply orb_false_elim in Hc as [Hc H44]. apply orb_false_elim in Hc as [H32 H46].
    apply N.eqb_neq in H32, H46, H44. done. }
  split; [|split; [|split]].
  - unfold normalize_title, strip, lstrip.
    destruct (split_head_prefix title) as (b1 & E1).
    destruct (drop_while_suffix is_trim_char (split_head title)) as (a & E2).
    destruct (rstrip_prefix is_trim_char (drop_while is_trim_char (split_head title)))
      as (b2 & E3).
    exists a, (b2 ++ b1).
    remember (split_head title) as h eqn:Eh.
    remember (drop_while is_trim_char h) as dw eqn:Edw.
    remember (rstrip is_trim_char dw) as r eqn:Er.
    rewrite E1, E2, E3. by rewrite <- !app_assoc.
  - eapply Forall_impl; [apply normalize_title_free|].
    intros c Hc. unfold is_separator in Hc.
    apply orb_false_elim in Hc as [H58 H59]. by apply N.eqb_neq in H58, H59.
  - intros c Hc. apply Htrim. by apply (strip_head _ _ _ Hc).
  - intros c Hc. apply Htrim. unfold normalize_title, strip in Hc.
    by apply (rstrip_last _ _ _ Hc).
Qed.

(** For a string, the identifier extractor is the regular expression search
    alone: the test for a blank field or the placeholder "NA" never changes
    the result, as such a field holds no match. *)
Theorem extract_viaf_id_is_search (u : str) :
  extract_viaf_id (PStr u) = viaf_search u.
Proof.
  simpl. case_bool_decide as Hplace; [|done].
  symmetry. apply viaf_search_None. intros n d Hm.
  apply (viaf_match_not_placeholder (take n u)) in Hm.
  by rewrite take_drop in Hm.
Qed.

(** A title that begins with a separator, after white space or not, and a
    title made of spaces, full stops and commas only, both normalize to the
    empty string. *)
Theorem normalize_title_empty :
  (forall ws c rest,
     Forall (fun a => isspace a = true) ws -> is_separator c = true ->
     normalize_title (ws ++ c :: rest) = [])
  /\ (forall t, Forall (fun a => is_trim_char a = true) t -> normalize_title t = []).
Proof.
  split.
  - intros ws c rest Hws Hc.
    assert (separator_at (ws ++ c :: rest) = true) as Hsep.
    { induction Hws as [|a ws Ha _ IH]; simpl; [by rewrite Hc|].
      rewrite Ha, IH. by destruct (is_separator a). }
    unfold normalize_title.
    destruct (ws ++ c :: rest) as [|a r]; [done|].
    change (split_head (a :: r))
      with (if separator_at (a :: r) then [] else a :: split_head r).
    by rewrite Hsep.
  - intros t Ht. unfold normalize_title, strip, lstrip.
    assert (Forall (fun a => is_trim_char a = true) (split_head t)) as Hh.
    { destruct (split_head_prefix t) as (b & E). rewrite E in Ht.
      by apply Forall_app in Ht as [Ht _]. }
    assert (drop_while is_trim_char (split_head t) = []) as ->; [|done].
    induction Hh as [|a r Ha _ IH]; [done|]. simpl. by rewrite Ha.
Qed.

End Pure.

Section Resolvers.

Context `{Unicode} `{Endpoint}.

(** ** The query service client *)

Lemma sparql_query_run query label tr :
  sparql_query query label tr =
  match respond tr query with
  | Bindings bs => (Ok bs, tr ++ [HttpGet SPARQL_URL query (Bindings bs)])
  | Failure e =>
      (Ok [], tr ++ [HttpGet SPARQL_URL query (Failure e); Print (warning label e)])
  end.
Proof.
  unfold sparql_query, bind, http_get, print, emit, ret.
  destruct (respond tr query); [done|]. by rewrite <- app_assoc.
Qed.

Lemma warning_contains label e :
  contains (warning label e) label /\ contains (warning label e) e.
Proof.
  unfold warning, contains. split.
  - destruct label as [|c l].
    + exists [], (lit "  Warning: SPARQL error" ++ [] ++ lit ": " ++ e). done.
    + exists (lit "  Warning: SPARQL error" ++ lit " for "), (lit ": " ++ e).
      by rewrite <- !app_assoc.
  - eexists _, []. rewrite app_nil_r, !app_assoc. reflexivity.
Qed.

(** C4. The query service client returns the bindings list on success; on a
    failure of the request, of the HTTP status or of the decoding it prints
    a warning that includes the label and the error and returns the empty
    list.  In both cases it returns: it never raises. *)
Theorem sparql_query_never_raises (query label : str) (tr : list Event) :
  (exists bs tr', sparql_query query label tr = (Ok bs, tr'))
  /\ match respond tr query with
     | Bindings bs =>
         sparql_query query label tr
         = (Ok bs, tr ++ [HttpGet SPARQL_URL query (Bindings bs)])
     | Failure e =>
         exists line,
           sparql_query query label tr
           = (Ok [], tr ++ [HttpGet SPARQL_URL query (Failure e); Print line])
           /\ contains line label /\ contains line e
     end.
Proof.
  rewrite sparql_query_run. destruct (respond tr query) as [bs|e].
  - split; [by eexists _, _|done].
  - split; [by eexists _, _|].
    exists (warning label e). split; [done|]. apply warning_contains.
Qed.

(** ** The work resolution by title *)

Lemma escape_head s : head (escape s) <> Some quote.
Proof.
  destruct s as [|c s]; [done|].
  unfold escape, replace_char. simpl.
  destruct (c =? quote) eqn:E; simpl; [done|].
  intros [= ->]. by rewrite N.eqb_refl in E.
Qed.

(** Escaping the quotes loses nothing: two titles are written the same way
    only when they are the same. *)
Lemma escape_inj s1 s2 : escape s1 = escape s2 -> s1 = s2.
Proof.
  revert s2. induction s1 as [|a s1 IH]; intros [|b s2].
  - done.
  - unfold escape, replace_char. simpl. by destruct (b =? quote).
  - unfold escape, replace_char. simpl. by destruct (a =? quote).
  - pose proof (escape_head s1) as H1. pose proof (escape_head s2) as H2.
    change (escape (a :: s1))
      with ((if a =? quote then [backslash; quote] else [a]) ++ escape s1).
    change (escape (b :: s2))
      with ((if b =? quote then [backslash; quote] else [b]) ++ escape s2).
    destruct (a =? quote) eqn:Ea; destruct (b =? quote) eqn:Eb; simpl.
    + apply N.eqb_eq in Ea, Eb. intros [= E]. f_equal; [congruence|by apply IH].
    + intros [= <- E]. rewrite <- E in H2. by destruct H2.
    + intros [= -> E]. rewrite E in H1. by destruct H1.
    + intros [= -> E]. f_equal. by apply IH.
Qed.

Lemma title_fallback_run title escaped tr :
  title_fallback title escaped tr =
  match first_match (label_query escaped) escaped tr with
  | (Ok result, tr1) =>
      if truthy result then (Ok result, tr1)
      else if bool_decide (escape title <> escaped)
           then first_match (full_title_query (escape title)) (escape title) tr1
           else (Ok result, tr1)
  | (Raise e, tr1) => (Raise e, tr1)
  end.
Proof.
  unfold title_fallback, first_match, bind, lift, ret, escape.
  destruct (sparql_query (label_query escaped) escaped tr) as [[bs|e] tr1]; [|done].
  destruct (first_qid bs (lit "item")) as [result|e]; [|done].
  destruct (truthy result); [done|].
  by case_bool_decide.
Qed.

Lemma title_to_wikidata_run title author_qid tr :
  title_to_wikidata title author_qid tr =
  let escaped := escape (normalize_title title) in
  let tr0 := tr ++ [Invoke (TitleLookup title author_qid)] in
  match author_qid with
  | Some (c :: q) =>
      match first_match (author_query escaped (c :: q)) escaped tr0 with
      | (Ok result, tr1) =>
          if truthy result then (Ok result, tr1)
          else title_fallback title escaped tr1
      | (Raise e, tr1) => (Raise e, tr1)
      end
  | _ => title_fallback title escaped tr0
  end.
Proof.
  unfold title_to_wikidata, first_match, bind, lift, ret, emit, escape. simpl.
  destruct author_qid as [[|c q]|]; try done.
  destruct (sparql_query _ _ _) as [[bs|e] tr1]; [|done].
  destruct (first_qid bs (lit "item")) as [result|e]; [|done].
  by destruct (truthy result).
Qed.

(** ** More on the resolvers *)

Lemma rsplit_last_segment sep pre q :
  sep ∉ q -> rsplit_last sep (pre ++ sep :: q) = q.
Proof.
  intros Hq. unfold rsplit_last.
  rewrite reverse_app, reverse_cons, <- app_assoc. simpl.
  rewrite take_while_app; [apply reverse_involutive| |].
  - apply Forall_reverse, Forall_forall. intros c Hc.
    apply negb_true_iff, N.eqb_neq. by intros ->.
  - intros c [= <-]. by rewrite N.eqb_refl.
Qed.

Lemma rsplit_last_whole sep s : sep ∉ s -> rsplit_last sep s = s.
Proof.
  intros Hs. unfold rsplit_last.
  rewrite <- (app_nil_r (reverse s)), take_while_app; [apply reverse_involutive| |done].
  apply Forall_reverse, Forall_forall. intros c Hc.
  apply negb_true_iff, N.eqb_neq. by intros ->.
Qed.

Lemma rsplit_last_free sep s : sep ∉ rsplit_last sep s.
Proof.
  unfold rsplit_last. rewrite elem_of_reverse. intros Hin.
  pose proof (take_while_Forall (fun c => negb (c =? sep)) (reverse s)) as Hall.
  apply (proj1 (Forall_forall _ _) Hall) in Hin.
  by rewrite N.eqb_refl in Hin.
Qed.

(** [first_qid] looks at the first binding only.  It gives what follows the
    last slash of the URI bound to the variable (the whole URI when it has
    no slash), so an identifier without slash; it gives absent for an empty
    list, and it raises [KeyError] when the first binding does not bind the
    variable. *)
Theorem first_qid_spec (var : str) :
  first_qid [] var = Ok None
  /\ (forall b bs, b !! var = None -> first_qid (b :: bs) var = Raise (KeyError var))
  /\ (forall b bs pre q,
        b !! var = Some (pre ++ 47 :: q) -> 47 ∉ q ->
        first_qid (b :: bs) var = Ok (Some q))
  /\ (forall b bs uri,
        b !! var = Some uri -> 47 ∉ uri -> first_qid (b :: bs) var = Ok (Some uri))
  /\ (forall bs q, first_qid bs var = Ok (Some q) -> 47 ∉ q).
Proof.
  split; [done|]. split; [|split; [|split]].
  - intros b bs Hb. simpl. by rewrite Hb.
  - intros b bs pre q Hb Hq. simpl. by rewrite Hb, rsplit_last_segment.
  - intros b bs uri Hb Huri. simpl. by rewrite Hb, rsplit_last_whole.
  - intros [|b bs] q; [done|]. simpl.
    destruct (b !! var) as [uri|]; [|done].
    intros [= <-]. apply rsplit_last_free.
Qed.

(** In an escaped title every quote follows a backslash, a title without
    quote is left as it is, and two titles have the same escaped form only
    when they are the same title. *)
Theorem escape_quotes :
  (forall t pre post, escape t = pre ++ quote :: post ->
     exists pre', pre = pre' ++ [backslash])
  /\ (forall t, quote ∉ t -> escape t = t)
  /\ (forall t1 t2, escape t1 = escape t2 -> t1 = t2).
Proof.
  split; [|split; [|apply escape_inj]].
  - intros t. induction t as [|c t IH]; intros pre post.
    { by destruct pre. }
    change (escape (c :: t))
      with ((if c =? quote then [backslash; quote] else [c]) ++ escape t).
    destruct (c =? quote) eqn:Ec; simpl.
    + destruct pre as [|a [|a' pre]]; simpl.
      * done.
      * intros [= <- _]. by exists [].
      * intros [= <- <- E]. destruct (IH _ _ E) as (pre' & ->).
        by exists (backslash :: quote :: pre').
    + destruct pre as [|a pre]; simpl.
      * intros [= -> _]. by rewrite N.eqb_refl in Ec.
      * intros [= <- E]. destruct (IH _ _ E) as (pre' & ->).
        by exists (c :: pre').
  - intros t. induction t as [|c t IH]; intros Hq; [done|].
    change (escape (c :: t))
      with ((if c =? quote then [backslash; quote] else [c]) ++ escape t).
    rewrite IH by (intros Hin; apply Hq; by right).
    destruct (c =? quote) eqn:Ec; [|done].
    apply N.eqb_eq in Ec. subst c. destruct Hq. by left.
Qed.

Lemma queries_app d1 d2 : queries (d1 ++ d2) = queries d1 ++ queries d2.
Proof. apply omap_app. Qed.

Lemma pauses_app d1 d2 : pauses (d1 ++ d2) = pauses d1 ++ pauses d2.
Proof. apply omap_app. Qed.

(** ** The chain of the work resolution *)

Lemma take_while_stop p l x r :
  p x = false -> take_while p (l ++ x :: r) = take_while p l.
Proof.
  intros Hx. induction l as [|c l IH]; simpl; [by rewrite Hx|].
  destruct (p c); [by rewrite IH|done].
Qed.

Lemma rsplit_last_after sep pre q :
  rsplit_last sep (pre ++ sep :: q) = rsplit_last sep q.
Proof.
  unfold rsplit_last. rewrite reverse_app, reverse_cons, <- app_assoc. simpl.
  rewrite take_while_stop; [done|]. by rewrite N.eqb_refl.
Qed.

(** The trailing segment of the specification is what [rsplit] gives. *)
Lemma rsplit_last_trailing_segment uri : rsplit_last 47 uri = trailing_segment uri.
Proof.
  assert (forall segment rest,
            47 ∉ segment ->
            rsplit_last 47 (segment ++ rest) = trailing_segment_from segment rest) as Hgen.
  { intros segment rest. revert segment.
    induction rest as [|c rest IH]; intros segment Hseg.
    - rewrite app_nil_r. by apply rsplit_last_whole.
    - simpl. destruct (c =? 47) eqn:Ec.
      + apply N.eqb_eq in Ec. subst c. rewrite rsplit_last_after.
        apply (IH []). apply not_elem_of_nil.
      + rewrite <- IH.
        * by rewrite <- app_assoc.
        * intros Hin. apply elem_of_app in Hin as [Hin|Hin]; [done|].
          apply list_elem_of_singleton in Hin. subst c. by rewrite N.eqb_refl in Ec. }
  apply (Hgen [] uri). apply not_elem_of_nil.
Qed.

(** The templates of the code are the queries of the specification. *)
Lemma viaf_query_spec v : viaf_query v = external_id_query v.
Proof.
  unfold viaf_query, external_id_query, select_item, has_external_id.
  cbn [concat map]. rewrite app_nil_r. repeat rewrite <- app_assoc. by vm_compute.
Qed.

Lemma author_query_spec title author_qid :
  author_query (escape title) author_qid = author_constrained_query title author_qid.
Proof.
  unfold author_query, author_constrained_query, select_item, has_label, created_by.
  cbn [concat map]. rewrite app_nil_r. repeat rewrite <- app_assoc. by vm_compute.
Qed.

Lemma label_query_spec title :
  label_query (escape title)
  = type_scoped_query (lit "    ")
      (lit "   # instance of (subclass of) written work") title.
Proof.
  unfold label_query, type_scoped_query, select_item, has_label, is_written_work.
  cbn [concat map]. rewrite app_nil_r. repeat rewrite <- app_assoc. by vm_compute.
Qed.

Lemma full_title_query_spec title :
  full_title_query (escape title) = type_scoped_query (lit "        ") [] title.
Proof.
  unfold full_title_query, type_scoped_query, select_item, has_label, is_written_work.
  cbn [concat map]. rewrite app_nil_r. repeat rewrite <- app_assoc. by vm_compute.
Qed.

(** What the resolvers do with a query is a step of the specification. *)
Lemma first_match_chain_step query label tr :
  first_match query label tr = chain_step query label tr.
Proof.
  unfold first_match, chain_step, bind, lift. rewrite sparql_query_run.
  destruct (respond tr query) as [[|b bs]|e]; try done.
  simpl. destruct (b !! lit "item") as [uri|]; [|done].
  by rewrite rsplit_last_trailing_segment.
Qed.

Lemma title_fallback_chain title last tr :
  let normalized := normalize_title title in
  title_fallback title (escape normalized) tr
  = first_success_or_last last
      ([chain_step
          (type_scoped_query (lit "    ")
             (lit "   # instance of (subclass of) written work") normalized)
          (escape normalized)]
       ++ (if bool_decide (normalized <> title)
           then [chain_step (type_scoped_query (lit "        ") [] title) (escape title)]
           else [])) tr.
Proof.
  intros normalized. rewrite title_fallback_run.
  rewrite label_query_spec, full_title_query_spec, !first_match_chain_step.
  cbn [first_success_or_last app]. unfold bind at 1.
  destruct (chain_step _ _ tr) as [[r3|e] tr1]; [|done].
  destruct (truthy r3) eqn:E3; [done|].
  destruct (decide (normalized = title)) as [Heq|Hne].
  - rewrite (bool_decide_eq_false_2 (escape title <> escape normalized))
      by (intros Hn; apply Hn; by rewrite Heq).
    by rewrite (bool_decide_eq_false_2 (normalized <> title))
      by (intros Hn; by apply Hn).
  - rewrite (bool_decide_eq_true_2 (escape title <> escape normalized))
      by (intros E; apply escape_inj in E; by destruct Hne).
    rewrite (bool_decide_eq_true_2 (normalized <> title)) by done.
    rewrite first_match_chain_step. cbn [first_success_or_last]. unfold bind.
    destruct (chain_step _ _ tr1) as [[r4|e] tr2]; [|done].
    unfold ret. by destruct (truthy r4).
Qed.


(** ** The requests of the resolvers *)

Lemma query_events_no_pause d : Forall query_event d -> pauses d = [].
Proof. induction 1 as [|e d He _ IH]; [done|]. by destruct e. Qed.

Lemma first_entity_segment b bs qid :
  b !! lit "item" = Some (lit "http://www.wikidata.org/entity/" ++ qid) ->
  47 ∉ qid ->
  first_entity (Bindings (b :: bs)) = Ok (Some qid).
Proof.
  intros Hb Hqid. cbn [first_entity]. rewrite Hb.
  rewrite <- rsplit_last_trailing_segment.
  change (lit "http://www.wikidata.org/entity/" ++ qid)
    with (lit "http://www.wikidata.org/entity" ++ 47 :: qid).
  by rewrite rsplit_last_segment.
Qed.

(** [viaf_to_wikidata] sends one request, the query for the entity whose
    external identifier (P214) is the given one, and makes no pause.  Its
    result is the first match of the response: a failed request and an
    empty result both give absent, without an exception; a first result
    [http://www.wikidata.org/entity/<id>] gives [<id>]. *)
Theorem viaf_to_wikidata_one_request (v : str) (tr : list Event) :
  let resp := respond (tr ++ [Invoke (ViafLookup v)]) (external_id_query v) in
  exists d,
    viaf_to_wikidata v tr
    = (first_entity resp,
       tr ++ Invoke (ViafLookup v) :: HttpGet SPARQL_URL (external_id_query v) resp :: d)
    /\ queries d = []
    /\ pauses d = []
    /\ (resp = Bindings [] \/ (exists e, resp = Failure e) ->
        first_entity resp = Ok None)
    /\ (forall b bs qid,
          resp = Bindings (b :: bs) ->
          b !! lit "item" = Some (lit "http://www.wikidata.org/entity/" ++ qid) ->
          47 ∉ qid ->
          first_entity resp = Ok (Some qid)).
Proof.
  intros resp.
  change (viaf_to_wikidata v tr)
    with (first_match (viaf_query v) v (tr ++ [Invoke (ViafLookup v)])).
  rewrite first_match_chain_step, viaf_query_spec. unfold chain_step.
  fold resp. rewrite <- app_assoc. cbn [app].
  eexists. split; [reflexivity|].
  split; [by destruct resp|]. split; [by destruct resp|]. split.
  - intros [-> | (e & ->)]; done.
  - intros b bs qid -> Hb Hqid. by apply first_entity_segment.
Qed.

Lemma first_success_or_last_delta steps qs :
  Forall2 (fun step q => exists label, step = chain_step q label) steps qs ->
  forall last tr,
    exists d,
      (first_success_or_last last steps tr).2 = tr ++ d
      /\ Forall query_event d
      /\ queries d `prefix_of` qs
      /\ (qs <> [] -> queries d <> []).
Proof.
  induction 1 as [|step q steps qs (label & ->) _ IH]; intros last tr.
  { exists []. rewrite app_nil_r. by repeat split. }
  cbn [first_success_or_last]. unfold bind, chain_step at 1.
  set (resp := respond tr q).
  set (w := match resp with
            | Failure e => [Print (warning label e)]
            | Bindings _ => []
            end).
  assert (Forall query_event (HttpGet SPARQL_URL q resp :: w)) as Hw.
  { unfold w. destruct resp; by repeat constructor. }
  assert (queries (HttpGet SPARQL_URL q resp :: w) = [q]) as Hq.
  { unfold w. by destruct resp. }
  assert (exists d,
            tr ++ HttpGet SPARQL_URL q resp :: w = tr ++ d
            /\ Forall query_event d
            /\ queries d `prefix_of` q :: qs
            /\ (q :: qs <> [] -> queries d <> [])) as Hone.
  { eexists. split; [reflexivity|]. split; [exact Hw|]. rewrite Hq.
    split; [|done]. apply prefix_cons, prefix_nil. }
  destruct (first_entity resp) as [r|e]; [|exact Hone].
  destruct (truthy r); [exact Hone|].
  destruct (IH r (tr ++ HttpGet SPARQL_URL q resp :: w)) as (d2 & E2 & Hd2 & Hp2 & _).
  rewrite E2. exists ((HttpGet SPARQL_URL q resp :: w) ++ d2).
  split; [by rewrite <- app_assoc|]. split; [by apply Forall_app|].
  rewrite queries_app, Hq. split; [by apply prefix_cons|done].
Qed.

Lemma title_steps_candidates title author_qid :
  Forall2 (fun step q => exists label, step = chain_step q label)
    (title_steps title author_qid) (title_candidates title author_qid).
Proof.
  unfold title_steps, title_candidates. cbv zeta.
  repeat apply Forall2_app.
  - destruct author_qid as [[|c q]|]; repeat constructor. by eexists.
  - repeat constructor. by eexists.
  - case_bool_decide; repeat constructor. by eexists.
Qed.

Lemma title_candidates_length title author_qid :
  length (title_candidates title author_qid)
  = ((if truthy author_qid then 1 else 0) + 1
     + (if bool_decide (normalize_title title = title) then 0 else 1))%nat.
Proof.
  unfold title_candidates. cbv zeta. rewrite !length_app.
  destruct (decide (normalize_title title = title)) as [Heq|Hne].
  - rewrite (bool_decide_eq_false_2 (normalize_title title <> title))
      by (intros Hn; by apply Hn).
    rewrite bool_decide_eq_true_2 by done.
    by destruct author_qid as [[|c q]|].
  - rewrite (bool_decide_eq_true_2 (normalize_title title <> title)) by done.
    rewrite bool_decide_eq_false_2 by done.
    by destruct author_qid as [[|c q]|].
Qed.

(** [title_to_wikidata] makes no pause, and the requests that it sends are
    the first one, two or three of these, in this order: the
    author-constrained query for the normalized title, which is there only
    when an author identifier is known; the type-scoped query for the
    normalized title; the type-scoped query for the full title, which is
    there only when normalizing changed the title. *)
Theorem title_to_wikidata_requests (title : str) (author_qid : option str)
    (tr : list Event) :
  exists d,
    (title_to_wikidata title author_qid tr).2
    = tr ++ Invoke (TitleLookup title author_qid) :: d
    /\ Forall query_event d
    /\ pauses d = []
    /\ queries d `prefix_of` title_candidates title author_qid
    /\ queries d <> []
    /\ (1 <= length (queries d)
        <= (if truthy author_qid then 1 else 0) + 1
           + (if bool_decide (normalize_title title = title) then 0 else 1))%nat.
Proof.
  assert (title_to_wikidata title author_qid tr
          = first_success_or_last None (title_steps title author_qid)
              (tr ++ [Invoke (TitleLookup title author_qid)])) as ->.
  { rewrite title_to_wikidata_run. unfold title_steps. cbv zeta.
    destruct author_qid as [[|c q]|]; try apply title_fallback_chain.
    rewrite author_query_spec, first_match_chain_step.
    change (first_success_or_last ?l ((?s :: ?r1) ++ ?rest) ?t)
      with (bind s (fun r => if truthy r then ret r
                             else first_success_or_last r (r1 ++ rest)) t).
    unfold bind at 1.
    destruct (chain_step _ _ _) as [[r|e] tr1]; [|done].
    destruct (truthy r); [done|]. apply title_fallback_chain. }
  destruct (first_success_or_last_delta _ _ (title_steps_candidates title author_qid)
              None (tr ++ [Invoke (TitleLookup title author_qid)]))
    as (d & E & Hd & Hp & Hne).
  assert (queries d <> []) as Hq.
  { apply Hne. unfold title_candidates. cbv zeta. by destruct author_qid as [[|c q]|]. }
  exists d. rewrite E, <- app_assoc.
  split; [done|]. split; [done|]. split; [by apply query_events_no_pause|].
  split; [done|]. split; [done|].
  rewrite <- title_candidates_length. split; [|by apply prefix_length].
  destruct (queries d); [done|simpl; lia].
Qed.

End Resolvers.

Section Driver.

Context `{Unicode} `{Endpoint}.

(** ** Computations and their traces *)

Lemma adds_ret {A} P (a : A) : adds P (ret a).
Proof. intros tr. exists []. by rewrite app_nil_r. Qed.

Lemma adds_lift {A} P (o : outcome A) : adds P (lift o).
Proof. intros tr. exists []. by rewrite app_nil_r. Qed.

Lemma adds_emit P e : P e -> adds P (emit e).
Proof. intros He tr. exists [e]. split; [done|]. by constructor. Qed.

Lemma adds_bind {A B} P (m : M A) (k : A -> M B) :
  adds P m -> (forall a, adds P (k a)) -> adds P (bind m k).
Proof.
  intros Hm Hk tr. unfold bind.
  destruct (Hm tr) as (d1 & E1 & H1).
  destruct (m tr) as [[a|e] tr1]; simpl in E1; subst tr1.
  - destruct (Hk a (tr ++ d1)) as (d2 & E2 & H2).
    exists (d1 ++ d2). rewrite E2, app_assoc. split; [done|]. by apply Forall_app.
  - by exists d1.
Qed.

Lemma adds_weaken {A} (P Q : Event -> Prop) (m : M A) :
  (forall e, P e -> Q e) -> adds P m -> adds Q m.
Proof.
  intros HPQ Hm tr. destruct (Hm tr) as (d & E & Hd).
  exists d. split; [done|]. by eapply Forall_impl.
Qed.

Lemma adds_http_get P url query :
  (forall resp, P (HttpGet url query resp)) -> adds P (http_get url query).
Proof. intros HP tr. eexists [_]. split; [done|]. by constructor. Qed.

Lemma adds_sparql_query P query label :
  (forall resp, P (HttpGet SPARQL_URL query resp)) ->
  (forall line, P (Print line)) ->
  adds P (sparql_query query label).
Proof.
  intros Hget Hprint. unfold sparql_query.
  apply adds_bind; [by apply adds_http_get|].
  intros [bs|e]; [apply adds_ret|].
  apply adds_bind; [by apply adds_emit|]. intros _. apply adds_ret.
Qed.

Lemma adds_first_match P query label :
  (forall resp, P (HttpGet SPARQL_URL query resp)) ->
  (forall line, P (Print line)) ->
  adds P (first_match query label).
Proof.
  intros Hget Hprint. unfold first_match.
  apply adds_bind; [by apply adds_sparql_query|]. intros bs. apply adds_lift.
Qed.

Lemma first_match_run query label tr :
  first_match query label tr =
  (response_qid (respond tr query),
   tr ++ HttpGet SPARQL_URL query (respond tr query)
      :: match respond tr query with
         | Bindings _ => []
         | Failure e => [Print (warning label e)]
         end).
Proof.
  unfold first_match, bind, lift. rewrite sparql_query_run.
  by destruct (respond tr query).
Qed.

Lemma viaf_to_wikidata_run v tr :
  viaf_to_wikidata v tr = first_match (viaf_query v) v (tr ++ [Invoke (ViafLookup v)]).
Proof. reflexivity. Qed.

Lemma resolutions_app d1 d2 : resolutions (d1 ++ d2) = resolutions d1 ++ resolutions d2.
Proof. apply omap_app. Qed.

Lemma resolutions_plain d : Forall plain d -> resolutions d = [].
Proof.
  induction 1 as [|e d He _ IH]; [done|].
  destruct e; simpl in *; try done.
Qed.

(** A call of [viaf_to_wikidata]: the call, one query for the identifier,
    and the result that its response resolves to. *)
Lemma viaf_to_wikidata_delta v tr :
  exists resp w,
    viaf_to_wikidata v tr
    = (response_qid resp,
       tr ++ Invoke (ViafLookup v) :: HttpGet SPARQL_URL (viaf_query v) resp :: w)
    /\ Forall (fun e => exists line, e = Print line) w.
Proof.
  rewrite viaf_to_wikidata_run, first_match_run.
  eexists _, _. rewrite <- app_assoc. split; [reflexivity|].
  destruct (respond _ _); repeat constructor. by eexists.
Qed.

Lemma query_events_plain d : Forall query_event d -> Forall plain d.
Proof. intros Hd. eapply Forall_impl; [exact Hd|]. by intros []. Qed.

(** A call of [title_to_wikidata]: the call, then queries and warnings. *)
Lemma title_to_wikidata_delta title author_qid tr :
  exists d,
    (title_to_wikidata title author_qid tr).2
    = tr ++ Invoke (TitleLookup title author_qid) :: d
    /\ Forall query_event d.
Proof.
  assert (forall escaped, adds query_event (title_fallback title escaped)) as Hfb.
  { intros escaped. unfold title_fallback.
    apply adds_bind; [by apply adds_sparql_query|]. intros bs.
    apply adds_bind; [apply adds_lift|]. intros result.
    destruct (truthy result); [apply adds_ret|].
    case_bool_decide; [|apply adds_ret].
    apply adds_bind; [by apply adds_sparql_query|]. intros bs'. apply adds_lift. }
  assert (adds query_event (fun tr =>
            let escaped := escape (normalize_title title) in
            match author_qid with
            | Some (c :: q) =>
                bind (first_match (author_query escaped (c :: q)) escaped)
                  (fun result => if truthy result then ret result
                                 else title_fallback title escaped) tr
            | _ => title_fallback title escaped tr
            end)) as Hall.
  { intros tr0. simpl. destruct author_qid as [[|c q]|]; try apply Hfb.
    apply adds_bind; [by apply adds_first_match|].
    intros result. destruct (truthy result); [apply adds_ret|apply Hfb]. }
  destruct (Hall (tr ++ [Invoke (TitleLookup title author_qid)])) as (d & E & Hd).
  exists d. split; [|done].
  rewrite title_to_wikidata_run. rewrite <- app_assoc in E. simpl in E.
  rewrite <- E. simpl. destruct author_qid as [[|c q]|]; try done.
  unfold bind. destruct (first_match _ _ _) as [[r|e] tr1]; [|done].
  by destruct (truthy r).
Qed.

(** ** The loop body, branch by branch *)

Lemma extract_viaf_id_cons url :
  extract_viaf_id url = None \/ exists c v, extract_viaf_id url = Some (c :: v).
Proof.
  destruct (extract_viaf_id url) as [[|c v]|] eqn:E; [|right; by eexists _, _|by left].
  by destruct (extract_viaf_id_digits url [] E).
Qed.

Lemma resolve_author_run row_num row cache tr :
  resolve_author row_num row cache tr =
  match author_key row with
  | None => (Ok (cache, None), tr)
  | Some v =>
      if bool_decide (is_Some (cache !! v)) then (Ok (cache, cache_get cache v), tr)
      else
        match series_item row (lit "author-name") with
        | Raise e => (Raise e, tr)
        | Ok name =>
            match viaf_to_wikidata v
                    (tr ++ [Print (row_num ++ lit " Author VIAF " ++ v ++ lit "  "
                                   ++ [arrow] ++ lit " " ++ py_str name)]) with
            | (Ok qid, tr1) => (Ok (<[v := qid]> cache, qid), tr1 ++ [Sleep DELAY])
            | (Raise e, tr1) => (Raise e, tr1)
            end
        end
  end.
Proof.
  unfold resolve_author, author_key.
  destruct (extract_viaf_id _) as [[|c v]|]; try done.
  unfold bind at 1. unfold bind at 1.
  case_bool_decide; [done|].
  unfold bind, lift, print, sleep, emit, ret.
  destruct (series_item row _) as [name|e]; [|done].
  destruct (viaf_to_wikidata _ _) as [[qid|e] tr1]; [|done].
  unfold cache_get. by rewrite lookup_insert_eq.
Qed.

Lemma resolve_work_run row_num row author_qid cache tr :
  resolve_work row_num row author_qid cache tr =
  match work_key row with
  | None => (Ok (cache, None), tr)
  | Some k =>
      match cache !! cache_key k with
      | Some q => (Ok (cache, q), tr)
      | None =>
          match
            match k with
            | ViafKey v =>
                viaf_to_wikidata v
                  (tr ++ [Print (row_num ++ lit " Work VIAF " ++ v ++ lit "  "
                                 ++ [arrow] ++ lit " " ++ take 60 (row_title row))])
            | TitleKey title =>
                title_to_wikidata title author_qid
                  (tr ++ [Print (row_num ++ lit " Work title search " ++ [arrow]
                                 ++ lit " " ++ take 60 title)])
            end
          with
          | (Ok qid, tr1) => (Ok (<[cache_key k := qid]> cache, qid), tr1 ++ [Sleep DELAY])
          | (Raise e, tr1) => (Raise e, tr1)
          end
      end
  end.
Proof.
  unfold resolve_work, work_key, row_title.
  destruct (extract_viaf_id _) as [[|c v]|].
  - case_bool_decide; [|done].
    unfold bind at 1. unfold bind at 2. unfold cache_key.
    destruct (cache !! _) as [q|] eqn:E.
    + rewrite bool_decide_eq_true_2 by done.
      unfold ret, bind, lift, cache_item. by rewrite E.
    + rewrite bool_decide_eq_false_2 by (by intros [? ?]).
      unfold bind, lift, print, sleep, emit, ret.
      destruct (title_to_wikidata _ _ _) as [[qid|e] tr1]; [|done].
      unfold cache_item. by rewrite lookup_insert_eq.
  - unfold bind at 1. unfold bind at 2. unfold cache_key.
    destruct (cache !! _) as [q|] eqn:E.
    + rewrite bool_decide_eq_true_2 by done.
      unfold ret, bind, lift, cache_item. by rewrite E.
    + rewrite bool_decide_eq_false_2 by (by intros [? ?]).
      unfold bind, lift, print, sleep, emit, ret.
      destruct (viaf_to_wikidata _ _) as [[qid|e] tr1]; [|done].
      unfold cache_item. by rewrite lookup_insert_eq.
  - case_bool_decide; [|done].
    unfold bind at 1. unfold bind at 2. unfold cache_key.
    destruct (cache !! _) as [q|] eqn:E.
    + rewrite bool_decide_eq_true_2 by done.
      unfold ret, bind, lift, cache_item. by rewrite E.
    + rewrite bool_decide_eq_false_2 by (by intros [? ?]).
      unfold bind, lift, print, sleep, emit, ret.
      destruct (title_to_wikidata _ _ _) as [[qid|e] tr1]; [|done].
      unfold cache_item. by rewrite lookup_insert_eq.
Qed.

Lemma loop_body_run n i row st tr :
  loop_body n i row st tr =
  let row_num := lit "[" ++ str_of_nat (i + 1) ++ lit "/" ++ str_of_nat n ++ lit "]" in
  match resolve_author row_num row (author_cache st) tr with
  | (Ok (acache, author_qid), tr1) =>
      match resolve_work row_num row author_qid (work_cache st) tr1 with
      | (Ok (wcache, work_qid), tr2) =>
          (Ok {| author_cache := acache;
                 work_cache := wcache;
                 author_qids := author_qids st ++ [author_qid];
                 work_qids := work_qids st ++ [work_qid] |}, tr2)
      | (Raise e, tr2) => (Raise e, tr2)
      end
  | (Raise e, tr1) => (Raise e, tr1)
  end.
Proof.
  unfold loop_body, bind, ret. simpl.
  destruct (resolve_author _ _ _ _) as [[[acache author_qid]|e] tr1]; [|done].
  by destruct (resolve_work _ _ _ _ _) as [[[wcache work_qid]|e] tr2].
Qed.

(** ** The identifiers passed to [viaf_to_wikidata] *)

Lemma plain_digit_lookup e : plain e -> digit_lookup e.
Proof. by destruct e. Qed.

Lemma loop_event_digit_lookup e : loop_event e -> digit_lookup e.
Proof. by destruct e. Qed.

Lemma adds_viaf_to_wikidata_digits v :
  v <> [] -> Forall (fun c => isdecimal c = true) v ->
  adds loop_event (viaf_to_wikidata v).
Proof.
  intros Hne Hd. unfold viaf_to_wikidata.
  apply adds_bind; [by apply adds_emit|]. intros _.
  apply adds_bind; [by apply adds_sparql_query|]. intros bs. apply adds_lift.
Qed.

Lemma adds_title_to_wikidata_digits title author_qid :
  adds loop_event (title_to_wikidata title author_qid).
Proof.
  intros tr. destruct (title_to_wikidata_delta title author_qid tr) as (d & E & Hd).
  eexists. split; [exact E|]. constructor; [done|].
  eapply Forall_impl; [exact Hd|]. by intros [].
Qed.

Lemma adds_resolve_author_digits row_num row cache :
  adds loop_event (resolve_author row_num row cache).
Proof.
  unfold resolve_author.
  destruct (extract_viaf_id _) as [[|c v]|] eqn:E;
    try (apply adds_bind; [apply adds_ret|]; intros ?; apply adds_ret).
  apply extract_viaf_id_digits in E. destruct E as [Hne Hd].
  apply adds_bind; [|intros ?; apply adds_ret].
  case_bool_decide; [apply adds_ret|].
  apply adds_bind; [apply adds_lift|]. intros name.
  apply adds_bind; [by apply adds_emit|]. intros _.
  apply adds_bind; [by apply adds_viaf_to_wikidata_digits|]. intros qid.
  apply adds_bind; [by apply adds_emit|]. intros _. apply adds_ret.
Qed.

Lemma adds_resolve_work_digits row_num row author_qid cache :
  adds loop_event (resolve_work row_num row author_qid cache).
Proof.
  assert (forall title,
    adds loop_event
      (if bool_decide (title <> [] /\ title <> lit "nan")
       then
         let cache_key := lit "title:" ++ title in
         let* cache :=
           if bool_decide (is_Some (cache !! cache_key)) then ret cache
           else
             print (row_num ++ lit " Work title search " ++ [arrow] ++ lit " "
                    ++ take 60 title) ;;;
             let* qid := title_to_wikidata title author_qid in
             sleep DELAY ;;;
             ret (<[cache_key := qid]> cache) in
         let* qid := lift (cache_item cache cache_key) in
         ret (cache, qid)
       else ret (cache, None))) as Htitle.
  { intros title. case_bool_decide; [|apply adds_ret]. simpl.
    apply adds_bind.
    - case_bool_decide; [apply adds_ret|].
      apply adds_bind; [by apply adds_emit|]. intros _.
      apply adds_bind; [apply adds_title_to_wikidata_digits|]. intros qid.
      apply adds_bind; [by apply adds_emit|]. intros _. apply adds_ret.
    - intros c. apply adds_bind; [apply adds_lift|]. intros ?. apply adds_ret. }
  unfold resolve_work.
  destruct (extract_viaf_id _) as [[|c v]|] eqn:E; try apply Htitle.
  apply extract_viaf_id_digits in E. destruct E as [Hne Hd].
  apply adds_bind.
  - case_bool_decide; [apply adds_ret|].
    apply adds_bind; [by apply adds_emit|]. intros _.
    apply adds_bind; [by apply adds_viaf_to_wikidata_digits|]. intros qid.
    apply adds_bind; [by apply adds_emit|]. intros _. apply adds_ret.
  - intros c'. apply adds_bind; [apply adds_lift|]. intros ?. apply adds_ret.
Qed.

Lemma adds_loop P n i rows st :
  (forall i row st, adds P (loop_body n i row st)) -> adds P (loop n i rows st).
Proof.
  intros Hbody. revert i st. induction rows as [|row rows IH]; intros i st; simpl.
  - apply adds_ret.
  - apply adds_bind; [apply Hbody|]. intros st'. apply IH.
Qed.

Lemma adds_loop_body_digits n i row st : adds loop_event (loop_body n i row st).
Proof.
  unfold loop_body.
  apply adds_bind; [apply adds_resolve_author_digits|]. intros [acache author_qid].
  apply adds_bind; [apply adds_resolve_work_digits|]. intros [wcache work_qid].
  apply adds_ret.
Qed.

(** What follows the loop in [main] adds no resolver call. *)
Lemma adds_main P df :
  (forall e, plain e -> P e) ->
  (forall i row st, adds P (loop_body (length (data df)) i row st)) ->
  adds P (main df).
Proof.
  intros Hplain Hbody. unfold main.
  apply adds_bind; [apply adds_emit; by apply Hplain|]. intros _.
  apply adds_bind; [by apply adds_loop|]. intros st.
  apply adds_bind; [apply adds_lift|]. intros df1.
  apply adds_bind; [apply adds_lift|]. intros df2.
  apply adds_bind; [apply adds_emit; by apply Hplain|]. intros _.
  apply adds_bind; [apply adds_emit; by apply Hplain|]. intros _.
  apply adds_bind; [apply adds_lift|]. intros authors.
  apply adds_bind; [apply adds_lift|]. intros works.
  apply adds_bind; [apply adds_emit; by apply Hplain|]. intros _.
  apply adds_emit. by apply Hplain.
Qed.

Lemma digits_not_ascii_other v c :
  Forall (fun c => isdecimal c = true) v -> isdecimal c = false -> c ∉ v.
Proof.
  intros Hd Hc Hin. apply (proj1 (Forall_forall _ _) Hd) in Hin. congruence.
Qed.

(** C10. In a run of the pipeline, every value passed to [viaf_to_wikidata]
    is a string of decimal digits that is not empty; so it contains no
    quote and no backslash, and the query template in which it is written
    unescaped keeps its structure. *)
Theorem viaf_lookups_are_digit_strings (df : DataFrame) (tr : list Event) :
  exists d,
    (main df tr).2 = tr ++ d
    /\ forall v, Invoke (ViafLookup v) ∈ d ->
         v <> [] /\ Forall (fun c => isdecimal c = true) v
         /\ (quote ∉ v) /\ (backslash ∉ v).
Proof.
  destruct (adds_main digit_lookup df plain_digit_lookup
              (fun i row st =>
                 adds_weaken _ _ _ loop_event_digit_lookup
                   (adds_loop_body_digits _ i row st)) tr) as (d & E & Hd).
  exists d. split; [done|]. intros v Hin.
  apply (proj1 (Forall_forall _ _) Hd) in Hin. destruct Hin as [Hne Hdig].
  repeat split; try done; by apply digits_not_ascii_other.
Qed.

(** ** One resolution per key *)

Lemma cache_key_inj k k' : cache_key k = cache_key k' -> k = k'.
Proof. destruct k, k'; cbn; intros E; by simplify_eq. Qed.

Lemma prints_plain w : Forall (fun e => exists line, e = Print line) w -> Forall plain w.
Proof. intros Hw. eapply Forall_impl; [exact Hw|]. by intros e [line ->]. Qed.

Lemma resolve_author_ok row_num row cache tr acache q tr' :
  resolve_author row_num row cache tr = (Ok (acache, q), tr') ->
  exists d,
    tr' = tr ++ d
    /\ q = author_out acache row
    /\ match author_key row with
       | None => acache = cache /\ d = []
       | Some v =>
           (is_Some (cache !! v) /\ acache = cache /\ d = [])
           \/ (cache !! v = None /\ acache = <[v := q]> cache
               /\ resolutions d = [ViafLookup v])
       end.
Proof.
  rewrite resolve_author_run. unfold author_out.
  destruct (author_key row) as [v|].
  - case_bool_decide as Hc.
    + intros [= <- <- <-]. exists []. rewrite app_nil_r.
      split; [done|]. split; [done|]. by left.
    + destruct (series_item row _) as [name|e]; [|done].
      destruct (viaf_to_wikidata_delta v
                  (tr ++ [Print (row_num ++ lit " Author VIAF " ++ v ++ lit "  "
                                 ++ [arrow] ++ lit " " ++ py_str name)]))
        as (resp & w & -> & Hw).
      destruct (response_qid resp) as [qid|e]; [|done].
      intros [= <- <- <-]. eexists (_ :: _ :: _ :: w ++ [_]).
      split; [by rewrite <- !app_assoc|].
      split; [unfold cache_get; by rewrite lookup_insert_eq|].
      right. split; [by apply eq_None_not_Some|]. split; [done|].
      simpl. rewrite resolutions_app, (resolutions_plain w) by by apply prints_plain.
      done.
  - intros [= <- <- <-]. exists []. by rewrite app_nil_r.
Qed.

Lemma resolve_work_ok row_num row author_qid cache tr wcache q tr' :
  resolve_work row_num row author_qid cache tr = (Ok (wcache, q), tr') ->
  exists d,
    tr' = tr ++ d
    /\ q = work_out wcache row
    /\ match work_key row with
       | None => wcache = cache /\ d = []
       | Some k =>
           (cache !! cache_key k = Some q /\ wcache = cache /\ d = [])
           \/ (cache !! cache_key k = None /\ wcache = <[cache_key k := q]> cache
               /\ (exists c, resolutions d = [c] /\ lookup_key c = k)
               /\ forall v, k = ViafKey v ->
                    exists resp, HttpGet SPARQL_URL (viaf_query v) resp ∈ d
                                 /\ response_qid resp = Ok q)
       end.
Proof.
  rewrite resolve_work_run. unfold work_out.
  destruct (work_key row) as [k|].
  - destruct (cache !! cache_key k) as [q0|] eqn:Ec.
    + intros [= <- <- <-]. exists []. rewrite app_nil_r.
      split; [done|]. split; [unfold cache_get; by rewrite Ec|]. by left.
    + destruct k as [v|title].
      * destruct (viaf_to_wikidata_delta v
                    (tr ++ [Print (row_num ++ lit " Work VIAF " ++ v ++ lit "  "
                                   ++ [arrow] ++ lit " " ++ take 60 (row_title row))]))
          as (resp & w & -> & Hw).
        destruct (response_qid resp) as [qid|e] eqn:Er; [|done].
        intros [= <- <- <-]. eexists (_ :: _ :: _ :: w ++ [_]).
        split; [by rewrite <- !app_assoc|].
        split; [unfold cache_get; by rewrite lookup_insert_eq|].
        right. split; [done|]. split; [done|]. split.
        -- exists (ViafLookup v). split; [|done].
           simpl. rewrite resolutions_app, (resolutions_plain w) by by apply prints_plain.
           done.
        -- intros v' [= <-]. exists resp. split; [|done].
           apply elem_of_cons. right. apply elem_of_cons. right.
           apply elem_of_cons. by left.
      * destruct (title_to_wikidata_delta title author_qid
                    (tr ++ [Print (row_num ++ lit " Work title search " ++ [arrow]
                                   ++ lit " " ++ take 60 title)]))
          as (d & Ed & Hd).
        destruct (title_to_wikidata _ _ _) as [[qid|e] tr1]; [|done].
        simpl in Ed. subst tr1.
        intros [= <- <- <-]. eexists (_ :: _ :: d ++ [_]).
        split; [by rewrite <- !app_assoc|].
        split; [unfold cache_get; by rewrite lookup_insert_eq|].
        right. split; [done|]. split; [done|]. split; [|done].
        exists (TitleLookup title author_qid). split; [|done].
        simpl. by rewrite resolutions_app, (resolutions_plain d) by by apply query_events_plain.
  - intros [= <- <- <-]. exists []. by rewrite app_nil_r.
Qed.

Lemma remove_dups_snoc {A} `{EqDecision A} (l : list A) x :
  remove_dups (l ++ [x]) ≡ₚ remove_dups l ++ (if decide (x ∈ l) then [] else [x]).
Proof.
  apply NoDup_Permutation.
  - apply NoDup_remove_dups.
  - case_decide as Hnew; [rewrite app_nil_r; apply NoDup_remove_dups|].
    apply NoDup_app. split; [apply NoDup_remove_dups|]. split; [|apply NoDup_singleton].
    intros y Hy Hx. apply list_elem_of_singleton in Hx. subst y.
    rewrite elem_of_remove_dups in Hy. by destruct Hnew.
  - intros y. rewrite elem_of_app, !elem_of_remove_dups, elem_of_app.
    case_decide; [|done].
    rewrite list_elem_of_singleton, elem_of_nil. split; [|tauto].
    intros [?| ->]; by left.
Qed.

Lemma omap_snoc {A B} (f : A -> option B) l x :
  omap f (l ++ [x]) = omap f l ++ match f x with Some y => [y] | None => [] end.
Proof. rewrite omap_app. simpl. by destruct (f x). Qed.

Lemma Permutation_app_middle {A} (X X' W W' a w : list A) :
  X' ≡ₚ X ++ a -> W' ≡ₚ W ++ w -> X' ++ W' ≡ₚ (X ++ W) ++ a ++ w.
Proof.
  intros -> ->. rewrite <- !app_assoc. apply Permutation_app_head.
  rewrite !app_assoc. apply Permutation_app_tail. apply Permutation_app_comm.
Qed.

Lemma distinct_lookups_snoc seen row :
  distinct_lookups (seen ++ [row]) ≡ₚ distinct_lookups seen ++ new_lookups seen row.
Proof.
  unfold distinct_lookups, new_lookups. rewrite !omap_snoc.
  apply Permutation_app_middle.
  - destruct (author_key row) as [v|].
    + etransitivity; [apply Permutation_map, remove_dups_snoc|].
      rewrite map_app. by case_decide.
    + by rewrite !app_nil_r.
  - destruct (work_key row) as [k|].
    + apply remove_dups_snoc.
    + by rewrite !app_nil_r.
Qed.

Lemma author_step seen cache acache q d row :
  (forall v, is_Some (cache !! v) <-> v ∈ omap author_key seen) ->
  match author_key row with
  | None => acache = cache /\ d = []
  | Some v =>
      (is_Some (cache !! v) /\ acache = cache /\ d = [])
      \/ (cache !! v = None /\ acache = <[v := q]> cache
          /\ resolutions d = [ViafLookup v])
  end ->
  (forall v, is_Some (acache !! v) <-> v ∈ omap author_key (seen ++ [row]))
  /\ map (author_out acache) seen = map (author_out cache) seen
  /\ map lookup_key (resolutions d)
     = match author_key row with
       | Some v => if decide (v ∈ omap author_key seen) then [] else [ViafKey v]
       | None => []
       end.
Proof.
  intros Hdom Hrow. destruct (author_key row) as [a|] eqn:Ek.
  - destruct Hrow as [(Hs & -> & ->) | (Hn & -> & Hres)].
    + split; [|split]; [|done|].
      * intros v. rewrite omap_snoc, Ek, elem_of_app, list_elem_of_singleton, <- Hdom.
        split; [by left|]. by intros [?| ->].
      * rewrite decide_True by by apply Hdom. done.
    + split; [|split].
      * intros v. rewrite lookup_insert_is_Some, omap_snoc, Ek, elem_of_app,
          list_elem_of_singleton, <- Hdom.
        split; [intros [->|[_ ?]]; by auto|].
        intros [?| ->]; [|by left].
        destruct (decide (a = v)); [by left|by right].
      * apply List.map_ext_in. intros r Hr. apply list_elem_of_In in Hr.
        unfold author_out. destruct (author_key r) as [v|] eqn:Er; [|done].
        unfold cache_get. rewrite lookup_insert_ne; [done|].
        intros ->. assert (is_Some (cache !! v)) as [? Hv].
        { apply Hdom, list_elem_of_omap. by exists r. }
        congruence.
      * rewrite Hres, decide_False; [done|].
        rewrite <- Hdom, Hn. by intros [? ?].
  - destruct Hrow as [-> ->]. split; [|done].
    intros v. by rewrite omap_snoc, Ek, app_nil_r.
Qed.

Lemma work_step seen cache wcache q d row :
  (forall k, is_Some (cache !! cache_key k) <-> k ∈ omap work_key seen) ->
  match work_key row with
  | None => wcache = cache /\ d = []
  | Some k =>
      (cache !! cache_key k = Some q /\ wcache = cache /\ d = [])
      \/ (cache !! cache_key k = None /\ wcache = <[cache_key k := q]> cache
          /\ (exists c, resolutions d = [c] /\ lookup_key c = k)
          /\ forall v, k = ViafKey v ->
               exists resp, HttpGet SPARQL_URL (viaf_query v) resp ∈ d
                            /\ response_qid resp = Ok q)
  end ->
  (forall k, is_Some (wcache !! cache_key k) <-> k ∈ omap work_key (seen ++ [row]))
  /\ map (work_out wcache) seen = map (work_out cache) seen
  /\ map lookup_key (resolutions d)
     = match work_key row with
       | Some k => if decide (k ∈ omap work_key seen) then [] else [k]
       | None => []
       end.
Proof.
  intros Hdom Hrow. destruct (work_key row) as [a|] eqn:Ek.
  - destruct Hrow as [(Hs & -> & ->) | (Hn & -> & (c & Hres & Hc) & _)].
    + split; [|split]; [|done|].
      * intros k. rewrite omap_snoc, Ek, elem_of_app, list_elem_of_singleton, <- Hdom.
        split; [by left|]. intros [?| ->]; [done|]. by rewrite Hs.
      * rewrite decide_True; [done|]. apply Hdom. by rewrite Hs.
    + split; [|split].
      * intros k. rewrite lookup_insert_is_Some, omap_snoc, Ek, elem_of_app,
          list_elem_of_singleton, <- Hdom.
        split.
        -- intros [E|[_ ?]]; [right; by apply cache_key_inj in E|by left].
        -- intros [?| ->]; [|by left].
           destruct (decide (cache_key a = cache_key k)); [by left|by right].
      * apply List.map_ext_in. intros r Hr. apply list_elem_of_In in Hr.
        unfold work_out. destruct (work_key r) as [k|] eqn:Er; [|done].
        unfold cache_get. rewrite lookup_insert_ne; [done|].
        intros E. apply cache_key_inj in E. subst k.
        assert (is_Some (cache !! cache_key a)) as [? Hv].
        { apply Hdom, list_elem_of_omap. by exists r. }
        congruence.
      * rewrite Hres, decide_False; [simpl; by rewrite Hc|].
        rewrite <- Hdom, Hn. by intros [? ?].
  - destruct Hrow as [-> ->]. split; [|done].
    intros k. by rewrite omap_snoc, Ek, app_nil_r.
Qed.

Lemma loop_body_inv n i row st tr st' tr' seen :
  loop_inv seen st ->
  loop_body n i row st tr = (Ok st', tr') ->
  loop_inv (seen ++ [row]) st'
  /\ exists d, tr' = tr ++ d /\ map lookup_key (resolutions d) = new_lookups seen row.
Proof.
  intros [Iad Iwd Iaq Iwq]. rewrite loop_body_run. simpl.
  destruct (resolve_author _ _ _ _) as [[[acache aq]|e] tr1] eqn:Ea; [|done].
  destruct (resolve_work _ _ _ _ _) as [[[wcache wq]|e] tr2] eqn:Ew; [|done].
  intros [= <- <-].
  apply resolve_author_ok in Ea as (d1 & -> & Haq & Ha).
  apply resolve_work_ok in Ew as (d2 & -> & Hwq & Hw).
  destruct (author_step seen _ _ _ _ _ Iad Ha) as (Ja & Jaq & Jar).
  destruct (work_step seen _ _ _ _ _ Iwd Hw) as (Jw & Jwq & Jwr).
  split.
  - constructor; simpl; [done|done| |].
    + by rewrite map_app, Jaq, <- Iaq, Haq.
    + by rewrite map_app, Jwq, <- Iwq, Hwq.
  - exists (d1 ++ d2). split; [by rewrite app_assoc|].
    unfold new_lookups. by rewrite resolutions_app, map_app, Jar, Jwr.
Qed.

Lemma loop_inv_initial : loop_inv [] initial_state.
Proof.
  constructor; simpl; try done.
  - intros v. rewrite lookup_empty, elem_of_nil. split; [by intros [? ?]|done].
  - intros k. rewrite lookup_empty, elem_of_nil. split; [by intros [? ?]|done].
Qed.

Lemma loop_ok n i rows st tr st' tr' seen :
  loop_inv seen st ->
  loop n i rows st tr = (Ok st', tr') ->
  loop_inv (seen ++ rows) st'
  /\ exists d,
       tr' = tr ++ d
       /\ distinct_lookups seen ++ map lookup_key (resolutions d)
          ≡ₚ distinct_lookups (seen ++ rows).
Proof.
  revert i st tr seen. induction rows as [|row rows IH]; intros i st tr seen Hinv.
  - intros [= <- <-]. rewrite !app_nil_r. split; [done|].
    exists []. by rewrite !app_nil_r.
  - simpl. unfold bind.
    destruct (loop_body n i row st tr) as [[st1|e] tr1] eqn:Eb; [|done].
    intros Hrest.
    destruct (loop_body_inv _ _ _ _ _ _ _ _ Hinv Eb) as (Hinv1 & d1 & -> & Hd1).
    destruct (IH _ _ _ _ Hinv1 Hrest) as (Hinv2 & d2 & -> & Hd2).
    rewrite <- app_assoc in Hinv2, Hd2. simpl in Hinv2, Hd2.
    split; [done|]. exists (d1 ++ d2). split; [by rewrite app_assoc|].
    rewrite <- Hd2, distinct_lookups_snoc, resolutions_app, map_app, Hd1.
    by rewrite <- !app_assoc.
Qed.

(** [main], step by step. *)
Lemma main_run df tr :
  main df tr =
  let n := length (data df) in
  match loop n 0 (frame_rows df) initial_state
          (tr ++ [Print (lit "Loaded " ++ str_of_nat n ++ lit " rows.")]) with
  | (Raise e, tr1) => (Raise e, tr1)
  | (Ok st, tr1) =>
      match df_setitem df (lit "author_wikidata_id") (map of_qid (author_qids st)) with
      | Raise e => (Raise e, tr1)
      | Ok df1 =>
          match df_setitem df1 (lit "work_wikidata_id") (map of_qid (work_qids st)) with
          | Raise e => (Raise e, tr1)
          | Ok df2 =>
              let written :=
                [ToCsv OUTPUT_FILE df2;
                 Print ([newline] ++ lit "Done. Results saved to '" ++ OUTPUT_FILE
                        ++ lit "'.")] in
              match df_column df2 (lit "author_wikidata_id") with
              | Raise e => (Raise e, tr1 ++ written)
              | Ok authors =>
                  match df_column df2 (lit "work_wikidata_id") with
                  | Raise e => (Raise e, tr1 ++ written)
                  | Ok works =>
                      (Ok tt,
                       tr1 ++ written
                       ++ [Print (lit "Authors matched: "
                                  ++ str_of_nat (count_notna authors) ++ lit "/"
                                  ++ str_of_nat (length (data df2)));
                           Print (lit "Works   matched: "
                                  ++ str_of_nat (count_notna works) ++ lit "/"
                                  ++ str_of_nat (length (data df2)))])
                  end
              end
          end
      end
  end.
Proof.
  unfold main, frame_rows. unfold bind at 1. unfold print at 1, emit at 1.
  unfold bind at 1.
  destruct (loop _ _ _ _ _) as [[st|e] tr1]; [|done].
  unfold bind at 1, lift at 1.
  destruct (df_setitem df _ _) as [df1|e]; [|done].
  unfold bind at 1, lift at 1.
  destruct (df_setitem df1 _ _) as [df2|e]; [|done].
  unfold bind, print, emit, lift. simpl.
  destruct (df_column df2 (lit "author_wikidata_id")) as [authors|e];
    [|by rewrite <- !app_assoc].
  destruct (df_column df2 (lit "work_wikidata_id")) as [works|e];
    by rewrite <- !app_assoc.
Qed.

(** ** The resolution behind each recorded identifier *)

Lemma resolved_at_extend tr d rest line c q :
  resolved_at tr d line c q -> resolved_at tr (d ++ rest) line c q.
Proof.
  intros (pre & events & post & -> & E). exists pre, events, (post ++ rest).
  split; [|done]. rewrite <- app_assoc. cbn [app]. by rewrite <- app_assoc.
Qed.

Lemma resolved_at_rebase tr e d line c q :
  resolved_at (tr ++ [e]) d line c q -> resolved_at tr (e :: d) line c q.
Proof.
  intros (pre & events & post & -> & E). exists (e :: pre), events, post.
  split; [done|]. rewrite <- !app_assoc in E. exact E.
Qed.

Lemma author_resolution_mono n rows tr d rest b b' v q :
  (b <= b')%nat ->
  author_resolution n rows tr d b v q ->
  author_resolution n rows tr (d ++ rest) b' v q.
Proof.
  intros Hb (j & row & name & Hj & Hrow & Hk & Hn & Hr).
  exists j, row, name. split; [lia|]. repeat (split; [done|]).
  by apply resolved_at_extend.
Qed.

Lemma work_resolution_mono n rows tr d rest b b' k q :
  (b <= b')%nat ->
  work_resolution n rows tr d b k q ->
  work_resolution n rows tr (d ++ rest) b' k q.
Proof.
  intros Hb (j & row & c & Hj & Hrow & Hk & Hc & Hr).
  exists j, row, c. split; [lia|]. repeat (split; [done|]).
  by apply resolved_at_extend.
Qed.

Lemma author_result_extend n rows tr d rest i q :
  author_result n rows tr d i q -> author_result n rows tr (d ++ rest) i q.
Proof.
  unfold author_result. destruct (rows !! i) as [row|]; [|done].
  destruct (author_key row) as [v|]; [|done]. by apply author_resolution_mono.
Qed.

Lemma work_result_extend n rows tr d rest i q :
  work_result n rows tr d i q -> work_result n rows tr (d ++ rest) i q.
Proof.
  unfold work_result. destruct (rows !! i) as [row|]; [|done].
  destruct (work_key row) as [k|]; [|done]. by apply work_resolution_mono.
Qed.

Lemma author_result_rebase n rows tr e d i q :
  author_result n rows (tr ++ [e]) d i q -> author_result n rows tr (e :: d) i q.
Proof.
  unfold author_result. destruct (rows !! i) as [row|]; [|done].
  destruct (author_key row) as [v|]; [|done].
  intros (j & r & name & Hj & Hrow & Hk & Hn & Hr).
  exists j, r, name. repeat (split; [done|]). by apply resolved_at_rebase.
Qed.

Lemma work_result_rebase n rows tr e d i q :
  work_result n rows (tr ++ [e]) d i q -> work_result n rows tr (e :: d) i q.
Proof.
  unfold work_result. destruct (rows !! i) as [row|]; [|done].
  destruct (work_key row) as [k|]; [|done].
  intros (j & r & c & Hj & Hrow & Hk & Hc & Hr).
  exists j, r, c. repeat (split; [done|]). by apply resolved_at_rebase.
Qed.

(** A resolver call adds its own mark to the history, then queries and
    warnings. *)
Lemma run_resolver_events c tr :
  exists events, (run_resolver c tr).2 = tr ++ Invoke c :: events.
Proof.
  destruct c as [v|title author_qid]; cbn [run_resolver].
  - destruct (viaf_to_wikidata_delta v tr) as (resp & w & -> & _). by eexists.
  - destruct (title_to_wikidata_delta title author_qid tr) as (d & -> & _). by eexists.
Qed.

(** The author part of the loop body keeps the link between cached results
    and resolutions, and what it returns is the result for the row. *)
Lemma resolve_author_resolved n rows tr0 i row cache d acache q tr' :
  rows !! i = Some row ->
  (forall v q, cache !! v = Some q -> author_resolution n rows tr0 d i v q) ->
  resolve_author (row_label i n) row cache (tr0 ++ d) = (Ok (acache, q), tr') ->
  exists d',
    tr' = tr0 ++ d ++ d'
    /\ (forall v q, acache !! v = Some q ->
          author_resolution n rows tr0 (d ++ d') (S i) v q)
    /\ match author_key row with
       | Some v => author_resolution n rows tr0 (d ++ d') (S i) v q
       | None => q = None
       end.
Proof.
  intros Hrow Hinv. rewrite resolve_author_run.
  destruct (author_key row) as [v|] eqn:Ek.
  - case_bool_decide as Hc.
    + intros [= <- <- <-]. exists []. rewrite !app_nil_r. split; [done|].
      assert (forall v q, cache !! v = Some q ->
                author_resolution n rows tr0 d (S i) v q) as Hup.
      { intros v' q' Hv'. rewrite <- (app_nil_r d).
        apply (author_resolution_mono _ _ _ _ _ i); [lia|by apply Hinv]. }
      split; [exact Hup|]. destruct Hc as [q0 Hq0].
      unfold cache_get. rewrite Hq0. by apply Hup.
    + destruct (series_item row _) as [name|e] eqn:En; [|done].
      fold (author_line n i v name).
      set (line := author_line n i v name).
      destruct (run_resolver_events (ViafLookup v) ((tr0 ++ d) ++ [Print line]))
        as (events & Eev).
      cbn [run_resolver] in Eev.
      destruct (viaf_to_wikidata v _) as [[qid|e] tr1] eqn:Ev; [|done].
      cbn [snd] in Eev. subst tr1.
      intros [= <- <- <-].
      exists (Print line :: Invoke (ViafLookup v) :: events ++ [Sleep DELAY]).
      split; [by rewrite <- !app_assoc|].
      assert (author_resolution n rows tr0
                (d ++ Print line :: Invoke (ViafLookup v) :: events ++ [Sleep DELAY])
                (S i) v qid) as Hnew.
      { exists i, row, name. split; [lia|]. repeat (split; [done|]).
        exists d, events, []. split; [done|].
        cbn [run_resolver]. rewrite <- !app_assoc in Ev. exact Ev. }
      split; [|exact Hnew].
      intros v' q' Hv'. apply lookup_insert_Some in Hv' as [[<- <-]|[_ Hold]]; [done|].
      apply (author_resolution_mono _ _ _ _ _ i); [lia|by apply Hinv].
  - intros [= <- <- <-]. exists []. rewrite !app_nil_r. split; [done|].
    split; [|done]. intros v' q' Hv'. rewrite <- (app_nil_r d).
    apply (author_resolution_mono _ _ _ _ _ i); [lia|by apply Hinv].
Qed.

(** The same for the work part. *)
Lemma resolve_work_resolved n rows tr0 i row author_qid cache d wcache q tr' :
  rows !! i = Some row ->
  (forall k q, cache !! cache_key k = Some q -> work_resolution n rows tr0 d i k q) ->
  resolve_work (row_label i n) row author_qid cache (tr0 ++ d) = (Ok (wcache, q), tr') ->
  exists d',
    tr' = tr0 ++ d ++ d'
    /\ (forall k q, wcache !! cache_key k = Some q ->
          work_resolution n rows tr0 (d ++ d') (S i) k q)
    /\ match work_key row with
       | Some k => work_resolution n rows tr0 (d ++ d') (S i) k q
       | None => q = None
       end.
Proof.
  intros Hrow Hinv. rewrite resolve_work_run.
  assert (forall k q, cache !! cache_key k = Some q ->
            work_resolution n rows tr0 d (S i) k q) as Hup.
  { intros k' q' Hk'. rewrite <- (app_nil_r d).
    apply (work_resolution_mono _ _ _ _ _ i); [lia|by apply Hinv]. }
  destruct (work_key row) as [k|] eqn:Ek.
  - destruct (cache !! cache_key k) as [q0|] eqn:Ec.
    + intros [= <- <- <-]. exists []. rewrite !app_nil_r. split; [done|].
      split; [exact Hup|]. by apply Hup.
    + set (line := work_line n i k row).
      set (c := match k with
                | ViafKey v => ViafLookup v
                | TitleKey title => TitleLookup title author_qid
                end).
      assert (lookup_key c = k) as Hc by (by destruct k).
      assert (match k with
              | ViafKey v =>
                  viaf_to_wikidata v
                    ((tr0 ++ d)
                     ++ [Print (row_label i n ++ lit " Work VIAF " ++ v ++ lit "  "
                                ++ [arrow] ++ lit " " ++ take 60 (row_title row))])
              | TitleKey title =>
                  title_to_wikidata title author_qid
                    ((tr0 ++ d)
                     ++ [Print (row_label i n ++ lit " Work title search " ++ [arrow]
                                ++ lit " " ++ take 60 title)])
              end = run_resolver c ((tr0 ++ d) ++ [Print line])) as ->
        by (by destruct k).
      destruct (run_resolver_events c ((tr0 ++ d) ++ [Print line])) as (events & Eev).
      destruct (run_resolver c _) as [[qid|e] tr1] eqn:Ev; [|done].
      cbn [snd] in Eev. subst tr1.
      intros [= <- <- <-].
      exists (Print line :: Invoke c :: events ++ [Sleep DELAY]).
      split; [by rewrite <- !app_assoc|].
      assert (work_resolution n rows tr0
                (d ++ Print line :: Invoke c :: events ++ [Sleep DELAY])
                (S i) k qid) as Hnew.
      { exists i, row, c. split; [lia|]. repeat (split; [done|]).
        exists d, events, []. split; [done|].
        rewrite <- !app_assoc in Ev. exact Ev. }
      split; [|exact Hnew].
      intros k' q' Hk'. apply lookup_insert_Some in Hk' as [[E <-]|[_ Hold]].
      * apply cache_key_inj in E. by subst k'.
      * apply (work_resolution_mono _ _ _ _ _ i); [lia|by apply Hinv].
  - intros [= <- <- <-]. exists []. rewrite !app_nil_r. split; [done|]. by split.
Qed.

Lemma loop_body_resolved n rows tr0 i row st d st' tr' :
  rows !! i = Some row ->
  resolved_inv n rows tr0 i st d ->
  loop_body n i row st (tr0 ++ d) = (Ok st', tr') ->
  exists d', tr' = tr0 ++ d ++ d' /\ resolved_inv n rows tr0 (S i) st' (d ++ d').
Proof.
  intros Hrow [Ia Iw Ila Ilw Ira Irw]. rewrite loop_body_run. cbv zeta.
  fold (row_label i n).
  destruct (resolve_author _ _ _ _) as [[[acache aq]|e] tr1] eqn:Ea; [|done].
  destruct (resolve_author_resolved _ _ _ _ _ _ _ _ _ _ Hrow Ia Ea)
    as (d1 & -> & Ja & Jra).
  rewrite app_assoc.
  destruct (resolve_work _ _ _ _ _) as [[[wcache wq]|e] tr2] eqn:Ew; [|done].
  rewrite <- app_assoc in Ew.
  assert (forall k q, work_cache st !! cache_key k = Some q ->
            work_resolution n rows tr0 (d ++ d1) i k q) as Iw1.
  { intros k q Hk. apply (work_resolution_mono _ _ _ _ _ i); [lia|by apply Iw]. }
  destruct (resolve_work_resolved _ _ _ _ _ _ _ _ _ _ _ Hrow Iw1 Ew)
    as (d2 & -> & Jw & Jrw).
  intros [= <- <-]. exists (d1 ++ d2). rewrite (app_assoc d d1 d2).
  split; [done|].
  constructor; cbn [author_cache work_cache author_qids work_qids].
  - intros v q Hv.
    apply (author_resolution_mono _ _ _ _ _ (S i)); [lia|by apply Ja].
  - exact Jw.
  - rewrite length_app, Ila. simpl. lia.
  - rewrite length_app, Ilw. simpl. lia.
  - intros j a Hj. apply lookup_app_Some in Hj as [Hj|[Hlen Hj]].
    + by apply author_result_extend, author_result_extend, Ira.
    + rewrite Ila in Hlen, Hj. apply list_lookup_singleton_Some in Hj as [Hj <-].
      assert (j = i) as -> by lia.
      unfold author_result. rewrite Hrow.
      destruct (author_key row) as [v|]; [|done].
      apply (author_resolution_mono _ _ _ _ _ (S i)); [lia|done].
  - intros j w Hj. apply lookup_app_Some in Hj as [Hj|[Hlen Hj]].
    + by apply work_result_extend, work_result_extend, Irw.
    + rewrite Ilw in Hlen, Hj. apply list_lookup_singleton_Some in Hj as [Hj <-].
      assert (j = i) as -> by lia.
      unfold work_result. by rewrite Hrow.
Qed.

Lemma loop_resolved n rows tr0 rest :
  forall seen st d st' tr',
    rows = seen ++ rest ->
    resolved_inv n rows tr0 (length seen) st d ->
    loop n (length seen) rest st (tr0 ++ d) = (Ok st', tr') ->
    exists d', tr' = tr0 ++ d ++ d' /\ resolved_inv n rows tr0 (length rows) st' (d ++ d').
Proof.
  induction rest as [|row rest IH]; intros seen st d st' tr' Hrows Hinv.
  - intros [= <- <-]. exists []. rewrite !app_nil_r. split; [done|].
    rewrite app_nil_r in Hrows. by subst rows.
  - cbn [loop]. unfold bind.
    destruct (loop_body n (length seen) row st (tr0 ++ d)) as [[st1|e] tr1] eqn:Eb;
      [|done].
    assert (rows !! length seen = Some row) as Hrow.
    { rewrite Hrows. by apply list_lookup_middle. }
    destruct (loop_body_resolved _ _ _ _ _ _ _ _ _ Hrow Hinv Eb) as (d1 & -> & Hinv1).
    replace (S (length seen)) with (length (seen ++ [row])) in *
      by (rewrite length_app; simpl; lia).
    rewrite app_assoc. intros Hrest. rewrite <- app_assoc in Hrest.
    assert (rows = (seen ++ [row]) ++ rest) as Hrows1 by (by rewrite <- app_assoc).
    destruct (IH (seen ++ [row]) _ _ _ _ Hrows1 Hinv1 Hrest) as (d2 & -> & Hinv2).
    exists (d1 ++ d2). by rewrite (app_assoc d d1 d2).
Qed.

Lemma resolved_inv_initial n rows tr0 : resolved_inv n rows tr0 0 initial_state [].
Proof. by constructor. Qed.

(** The loop of [main], from the message that precedes it: at its end
    every recorded identifier is what was resolved for its row, also in
    any longer history. *)
Lemma main_loop_resolved df tr st tr1 :
  let n := length (data df) in
  let loaded := Print (lit "Loaded " ++ str_of_nat n ++ lit " rows.") in
  loop n 0 (frame_rows df) initial_state (tr ++ [loaded]) = (Ok st, tr1) ->
  exists d,
    tr1 = tr ++ loaded :: d
    /\ forall rest i,
         (forall a, author_qids st !! i = Some a ->
            author_result n (frame_rows df) tr (loaded :: d ++ rest) i a)
         /\ (forall w, work_qids st !! i = Some w ->
               work_result n (frame_rows df) tr (loaded :: d ++ rest) i w).
Proof.
  intros n loaded Hloop.
  rewrite <- (app_nil_r (tr ++ [loaded])) in Hloop.
  destruct (loop_resolved n (frame_rows df) (tr ++ [loaded]) (frame_rows df)
              [] initial_state [] st tr1 eq_refl (resolved_inv_initial _ _ _) Hloop)
    as (d & -> & [_ _ _ _ Hra Hrw]).
  exists d. rewrite <- app_assoc. split; [done|].
  intros rest i. split.
  - intros a Ha. apply author_result_rebase, author_result_extend, Hra, Ha.
  - intros w Hw. apply work_result_rebase, work_result_extend, Hrw, Hw.
Qed.

(** C3. In a run of the pipeline driver that completes, the resolver is
    called once for each distinct author external identifier and once for
    each distinct tagged work lookup key, and no more: the number of
    resolutions is the number of distinct keys, not the number of rows.
    Every row receives the resolution cached for its key, a cached
    "nothing found" like any other; and what it receives is the result
    that the resolver returned when the key was resolved, at this row or at
    a row before it. *)
Theorem one_resolution_per_key (df : DataFrame) (tr tr' : list Event) :
  main df tr = (Ok tt, tr') ->
  let rows := frame_rows df in
  exists d st,
    tr' = tr ++ d
    /\ map lookup_key (resolutions d) ≡ₚ distinct_lookups rows
    /\ length (resolutions d)
       = (length (remove_dups (omap author_key rows))
          + length (remove_dups (omap work_key rows)))%nat
    /\ (loop (length (data df)) 0 rows initial_state
          (tr ++ [Print (lit "Loaded " ++ str_of_nat (length (data df))
                         ++ lit " rows.")])).1 = Ok st
    /\ author_qids st = map (author_out (author_cache st)) rows
    /\ work_qids st = map (work_out (work_cache st)) rows
    /\ (forall i a, author_qids st !! i = Some a ->
          author_result (length (data df)) rows tr d i a)
    /\ (forall i w, work_qids st !! i = Some w ->
          work_result (length (data df)) rows tr d i w).
Proof.
  rewrite main_run. simpl.
  destruct (loop _ _ _ _ _) as [[st|e] tr1] eqn:El; [|done].
  destruct (main_loop_resolved _ _ _ _ El) as (d' & Ed & Hres).
  destruct (loop_ok _ _ _ _ _ _ _ [] loop_inv_initial El) as (Hinv & d & -> & Hd).
  rewrite <- app_assoc in Ed. apply app_inv_head in Ed. injection Ed as <-.
  simpl in Hinv, Hd.
  destruct (df_setitem df _ _) as [df1|e]; [|done].
  destruct (df_setitem df1 _ _) as [df2|e]; [|done].
  destruct (df_column df2 (lit "author_wikidata_id")) as [authors|e]; [|done].
  destruct (df_column df2 (lit "work_wikidata_id")) as [works|e]; [|done].
  intros [= <-]. eexists (_ :: d ++ _), st.
  split; [by rewrite <- !app_assoc|].
  assert (forall rest, resolutions (d ++ ToCsv OUTPUT_FILE df2 :: Print rest :: [Print
            (lit "Authors matched: " ++ str_of_nat (count_notna authors) ++ lit "/"
             ++ str_of_nat (length (data df2)));
            Print (lit "Works   matched: " ++ str_of_nat (count_notna works) ++ lit "/"
             ++ str_of_nat (length (data df2)))]) = resolutions d) as Hres'.
  { intros rest. rewrite resolutions_app. simpl. by rewrite app_nil_r. }
  change (resolutions (?e :: ?l)) with (resolutions l).
  rewrite Hres'.
  split; [exact Hd|].
  split.
  { rewrite <- (length_map lookup_key), Hd. unfold distinct_lookups.
    by rewrite length_app, length_map. }
  split; [done|]. destruct Hinv as [_ _ Haq Hwq].
  split; [exact Haq|]. split; [exact Hwq|].
  split; intros i q Hq; by apply (Hres _ i).
Qed.

(** ** Precedence of the work external identifier *)

Lemma viaf_query_not_title v : ~ title_query (viaf_query v).
Proof.
  intros [(e & a & E) | [(e & E) | (e & E)]]; cbv in E; discriminate E.
Qed.

Lemma adds_viaf_to_wikidata_only v : adds viaf_only (viaf_to_wikidata v).
Proof.
  unfold viaf_to_wikidata.
  apply adds_bind; [by apply adds_emit|]. intros _.
  apply adds_bind; [|intros bs; apply adds_lift].
  apply adds_sparql_query; [|done].
  intros resp. split; [by exists v|apply viaf_query_not_title].
Qed.

Lemma adds_resolve_author_only row_num row cache :
  adds viaf_only (resolve_author row_num row cache).
Proof.
  unfold resolve_author.
  apply adds_bind; [|intros ?; apply adds_ret].
  destruct (extract_viaf_id _) as [[|c v]|]; try apply adds_ret.
  case_bool_decide; [apply adds_ret|].
  apply adds_bind; [apply adds_lift|]. intros name.
  apply adds_bind; [by apply adds_emit|]. intros _.
  apply adds_bind; [by apply adds_viaf_to_wikidata_only|]. intros qid.
  apply adds_bind; [by apply adds_emit|]. intros _. apply adds_ret.
Qed.

Lemma adds_resolve_work_only row_num row author_qid cache v :
  extract_viaf_id (series_get row (lit "title-ids") (PStr [])) = Some v ->
  adds viaf_only (resolve_work row_num row author_qid cache).
Proof.
  intros E. unfold resolve_work. rewrite E.
  destruct v as [|c v]; [by destruct (extract_viaf_id_digits _ _ E)|].
  apply adds_bind.
  - case_bool_decide; [apply adds_ret|].
    apply adds_bind; [by apply adds_emit|]. intros _.
    apply adds_bind; [by apply adds_viaf_to_wikidata_only|]. intros qid.
    apply adds_bind; [by apply adds_emit|]. intros _. apply adds_ret.
  - intros c'. apply adds_bind; [apply adds_lift|]. intros ?. apply adds_ret.
Qed.

Lemma work_key_viaf row v :
  extract_viaf_id (series_get row (lit "title-ids") (PStr [])) = Some v ->
  work_key row = Some (ViafKey v).
Proof.
  intros E. unfold work_key. rewrite E.
  destruct v as [|c v]; [by destruct (extract_viaf_id_digits _ _ E)|done].
Qed.

Lemma viaf_provenance_mono tr d cache :
  viaf_provenance tr cache -> viaf_provenance (tr ++ d) cache.
Proof.
  intros Hp v q Hv. destruct (Hp v q Hv) as (resp & Hin & Hr).
  exists resp. split; [|done]. apply elem_of_app. by left.
Qed.

Lemma loop_body_provenance n i row st tr st' tr' :
  viaf_provenance tr (work_cache st) ->
  loop_body n i row st tr = (Ok st', tr') ->
  viaf_provenance tr' (work_cache st').
Proof.
  intros Hp. rewrite loop_body_run. simpl.
  destruct (resolve_author _ _ _ _) as [[[acache aq]|e] tr1] eqn:Ea; [|done].
  destruct (resolve_work _ _ _ _ _) as [[[wcache wq]|e] tr2] eqn:Ew; [|done].
  intros [= <- <-]. simpl.
  apply resolve_author_ok in Ea as (d1 & -> & _).
  apply resolve_work_ok in Ew as (d2 & -> & _ & Hw).
  rewrite <- app_assoc.
  destruct (work_key row) as [k|].
  - destruct Hw as [(_ & -> & _) | (_ & -> & _ & Hk)].
    + by apply viaf_provenance_mono.
    + intros v q Hv. destruct (decide (k = ViafKey v)) as [->|Hne].
      * rewrite lookup_insert_eq in Hv. injection Hv as <-.
        destruct (Hk v eq_refl) as (resp & Hin & Hr).
        exists resp. split; [|done].
        apply elem_of_app. right. apply elem_of_app. by right.
      * rewrite lookup_insert_ne in Hv
          by (intros E; by apply cache_key_inj in E).
        by apply (viaf_provenance_mono tr (d1 ++ d2) _ Hp).
  - destruct Hw as [-> _]. by apply viaf_provenance_mono.
Qed.

Lemma loop_provenance n i rows st tr st' tr' :
  viaf_provenance tr (work_cache st) ->
  loop n i rows st tr = (Ok st', tr') ->
  viaf_provenance tr' (work_cache st').
Proof.
  revert i st tr. induction rows as [|row rows IH]; intros i st tr Hp.
  - by intros [= <- <-].
  - simpl. unfold bind.
    destruct (loop_body n i row st tr) as [[st1|e] tr1] eqn:Eb; [|done].
    apply IH. by eapply loop_body_provenance.
Qed.

Lemma loop_app n i pre rows st tr :
  loop n i (pre ++ rows) st tr =
  match loop n i pre st tr with
  | (Ok st1, tr1) => loop n (i + length pre) rows st1 tr1
  | (Raise e, tr1) => (Raise e, tr1)
  end.
Proof.
  revert i st tr. induction pre as [|row pre IH]; intros i st tr; simpl.
  - by rewrite Nat.add_0_r.
  - unfold bind. destruct (loop_body n i row st tr) as [[st1|e] tr1]; [|done].
    rewrite IH. by replace (S i + length pre)%nat with (i + S (length pre))%nat by lia.
Qed.

(** The rest of a computation only extends the trace of its first step. *)
Lemma bind_extends {A B} (m : M A) (k : A -> M B) tr :
  (forall a, adds (fun _ => True) (k a)) ->
  exists rest, (bind m k tr).2 = (m tr).2 ++ rest.
Proof.
  intros Hk. unfold bind. destruct (m tr) as [[a|e] tr1]; simpl.
  - destruct (Hk a tr1) as (d & E & _). by exists d.
  - exists []. by rewrite app_nil_r.
Qed.

Lemma adds_any_loop_body n i row st : adds (fun _ => True) (loop_body n i row st).
Proof.
  eapply adds_weaken; [|apply adds_loop_body_digits]. done.
Qed.

(** C2. For a row whose work external-identifier reference is populated,
    the row is processed on the external-identifier path alone:
    [title_to_wikidata] is not called and no title-matching query is sent,
    whatever the external-identifier lookup returns; and the work
    identifier recorded for the row is the answer to an external-identifier
    query for that reference, sent in this run. *)
Theorem work_identifier_takes_precedence (df : DataFrame)
    (pre post : list (list pyval)) (row : list pyval) (v : str)
    (st1 : LoopState) (tr1 : list Event) :
  let n := length (data df) in
  let loaded := Print (lit "Loaded " ++ str_of_nat n ++ lit " rows.") in
  data df = pre ++ row :: post ->
  extract_viaf_id (series_get (row_series df row) (lit "title-ids") (PStr [])) = Some v ->
  loop n 0 (map (row_series df) pre) initial_state [loaded] = (Ok st1, tr1) ->
  exists d,
    (loop_body n (length pre) (row_series df row) st1 tr1).2 = tr1 ++ d
    /\ Forall viaf_only d
    /\ (forall st2,
          (loop_body n (length pre) (row_series df row) st1 tr1).1 = Ok st2 ->
          exists q resp,
            work_qids st2 = work_qids st1 ++ [q]
            /\ HttpGet SPARQL_URL (viaf_query v) resp ∈ tr1 ++ d
            /\ response_qid resp = Ok q)
    /\ exists rest, (main df []).2 = tr1 ++ d ++ rest.
Proof.
  intros n loaded Hdata Hv Hpre.
  assert (adds viaf_only (loop_body n (length pre) (row_series df row) st1)) as Hadds.
  { unfold loop_body.
    apply adds_bind; [apply adds_resolve_author_only|]. intros [acache aq].
    apply adds_bind; [by eapply adds_resolve_work_only|]. intros [wcache wq].
    apply adds_ret. }
  destruct (Hadds tr1) as (d & Ed & Hd).
  exists d. split; [done|]. split; [done|]. split.
  - intros st2 Hok.
    assert (viaf_provenance tr1 (work_cache st1)) as Hp.
    { eapply loop_provenance; [|exact Hpre]. intros ? ? Hc.
      simpl in Hc. by rewrite lookup_empty in Hc. }
    destruct (loop_body n (length pre) (row_series df row) st1 tr1)
      as [o tr2] eqn:Eb. simpl in Ed, Hok. subst o tr2.
    rewrite loop_body_run in Eb. simpl in Eb.
    destruct (resolve_author _ _ _ _) as [[[acache aq]|e] tr2] eqn:Ea; [|done].
    destruct (resolve_work _ _ _ _ _) as [[[wcache wq]|e] tr3] eqn:Ew; [|done].
    injection Eb as <- Etr.
    apply resolve_author_ok in Ea as (d1 & -> & _).
    apply resolve_work_ok in Ew as (d2 & -> & _ & Hw).
    rewrite (work_key_viaf _ _ Hv) in Hw.
    rewrite <- app_assoc in Etr. apply app_inv_head in Etr. subst d.
    simpl. exists wq.
    destruct Hw as [(Hc & _ & _) | (_ & _ & _ & Hk)].
    + destruct (Hp v wq Hc) as (resp & Hin & Hr).
      exists resp. split; [done|]. split; [|done]. apply elem_of_app. by left.
    + destruct (Hk v eq_refl) as (resp & Hin & Hr).
      exists resp. split; [done|]. split; [|done].
      apply elem_of_app. right. apply elem_of_app. by right.
  - assert (exists rest1,
      (loop n 0 (frame_rows df) initial_state [loaded]).2
      = (loop_body n (length pre) (row_series df row) st1 tr1).2 ++ rest1)
      as (rest1 & E1).
    { unfold frame_rows. rewrite Hdata, map_app, loop_app, Hpre. simpl.
      rewrite length_map.
      apply bind_extends. intros st. apply adds_loop. intros. apply adds_any_loop_body. }
    assert (exists rest2,
      (main df []).2 = (loop n 0 (frame_rows df) initial_state [loaded]).2 ++ rest2)
      as (rest2 & E2).
    { rewrite main_run. cbv zeta. fold n. fold loaded.
      change ([] ++ [loaded]) with [loaded].
      destruct (loop n 0 (frame_rows df) initial_state [loaded]) as [[st|e] tr2];
        cbn [fst snd]; [|exists []; by rewrite app_nil_r].
      destruct (df_setitem df _ _) as [df1|e]; [|exists []; by rewrite app_nil_r].
      destruct (df_setitem df1 _ _) as [df2|e]; [|exists []; by rewrite app_nil_r].
      destruct (df_column df2 (lit "author_wikidata_id")); [|by eexists].
      destruct (df_column df2 (lit "work_wikidata_id")); by eexists. }
    exists (rest1 ++ rest2). by rewrite E2, E1, Ed, <- !app_assoc.
Qed.

(** ** The written frame *)

Lemma column_index_None cols col : col ∉ cols -> column_index cols col = None.
Proof.
  induction cols as [|c cols IH]; [done|]. intros Hnot. simpl.
  rewrite bool_decide_eq_false_2 by (intros ->; apply Hnot; by left).
  rewrite IH; [done|]. intros Hin. apply Hnot. by right.
Qed.

Lemma df_setitem_fresh df col values :
  col ∉ columns df -> length values = length (data df) ->
  df_setitem df col values
  = Ok {| columns := columns df ++ [col];
          data := zip_with (fun row v => row ++ [v]) (data df) values |}.
Proof.
  intros Hnew Hlen. unfold df_setitem.
  by rewrite bool_decide_eq_true_2, column_index_None.
Qed.

Lemma map_fmap {A B} (f : A -> B) l : map f l = f <$> l.
Proof. reflexivity. Qed.

Lemma cell_of_qid q : cell_of q (of_qid q).
Proof. by destruct q. Qed.

(** C9, amended.  For an input frame that has no column named
    [author_wikidata_id] or [work_wikidata_id], the frame written by the
    pipeline driver has the columns of the input unchanged and exactly the
    two identifier columns after them, with the rows of the input in the
    same order and number.  The two new cells of a row are, in this order,
    the identifier that the run resolved for the author of the row and the
    one that it resolved for its work, a missing value where the
    resolution found nothing or the row had nothing to resolve.  A run
    that completes writes this frame. *)
Theorem output_appends_two_columns (df : DataFrame) (tr : list Event) :
  lit "author_wikidata_id" ∉ columns df ->
  lit "work_wikidata_id" ∉ columns df ->
  exists d,
    (main df tr).2 = tr ++ d
    /\ (forall path out,
          ToCsv path out ∈ d ->
          path = OUTPUT_FILE /\ output_extends_input df tr d out)
    /\ ((main df tr).1 = Ok tt -> exists out, ToCsv OUTPUT_FILE out ∈ d).
Proof.
  intros HA HW. rewrite main_run. cbv zeta.
  set (loaded := Print _).
  destruct (adds_loop loop_event (length (data df)) 0 (frame_rows df) initial_state
              (adds_loop_body_digits _) (tr ++ [loaded])) as (dl & El & Hdl).
  assert (forall path out, ToCsv path out ∉ dl) as Hno.
  { intros path out Hin. by apply (proj1 (Forall_forall _ _) Hdl) in Hin. }
  destruct (loop _ _ _ _ _) as [[st|e] tr1] eqn:Eloop; cbn [fst snd] in El; subst tr1.
  2:{ exists (loaded :: dl). cbn [fst snd]. split; [by rewrite <- app_assoc|].
      split; [|done]. intros path out Hin.
      apply elem_of_cons in Hin as [Hin|Hin]; [done|]. by destruct (Hno path out). }
  destruct (main_loop_resolved _ _ _ _ Eloop) as (d' & Ed & Hres).
  rewrite <- app_assoc in Ed. apply app_inv_head in Ed. injection Ed as <-.
  destruct (loop_ok _ _ _ _ _ _ _ [] loop_inv_initial Eloop) as ([_ _ Haq Hwq] & _).
  rewrite app_nil_l in Haq, Hwq.
  assert (length (author_qids st) = length (data df)) as Hla.
  { rewrite Haq. unfold frame_rows. by rewrite !length_map. }
  assert (length (work_qids st) = length (data df)) as Hlw.
  { rewrite Hwq. unfold frame_rows. by rewrite !length_map. }
  rewrite df_setitem_fresh by (by rewrite ?length_map).
  rewrite df_setitem_fresh; cycle 1.
  { cbn [columns]. intros Hin. apply elem_of_app in Hin as [Hin|Hin]; [done|].
    apply list_elem_of_singleton in Hin. discriminate Hin. }
  { cbn [data]. rewrite length_zip_with, !length_map. lia. }
  cbn [columns data].
  set (out := {| columns := _; data := _ |}).
  assert (forall rest, output_extends_input df tr (loaded :: dl ++ rest) out) as Hout.
  { intros rest. unfold output_extends_input, out. cbn [columns data].
    split; [by rewrite <- app_assoc|].
    split; [rewrite !length_zip_with, !length_map; lia|].
    intros i row Hrow.
    assert (is_Some (author_qids st !! i)) as [a Ha].
    { apply lookup_lt_is_Some. rewrite Hla. by eapply lookup_lt_Some. }
    assert (is_Some (work_qids st !! i)) as [w Hw].
    { apply lookup_lt_is_Some. rewrite Hlw. by eapply lookup_lt_Some. }
    exists a, w, (of_qid a), (of_qid w).
    split; [by apply (Hres rest i)|]. split; [by apply (Hres rest i)|].
    split; [apply cell_of_qid|]. split; [apply cell_of_qid|].
    rewrite !map_fmap, !lookup_zip_with, !list_lookup_fmap.
    rewrite Hrow, Ha, Hw. simpl. by rewrite <- app_assoc. }
  assert (forall rest,
            (forall path o, ToCsv path o ∈ rest -> False) ->
            forall path o,
              ToCsv path o ∈ loaded :: dl ++ ToCsv OUTPUT_FILE out :: rest ->
              path = OUTPUT_FILE
              /\ output_extends_input df tr
                   (loaded :: dl ++ ToCsv OUTPUT_FILE out :: rest) o) as Hall.
  { intros rest Hrest path o Hin.
    apply elem_of_cons in Hin as [Hin|Hin]; [done|].
    apply elem_of_app in Hin as [Hin|Hin]; [by destruct (Hno path o)|].
    apply elem_of_cons in Hin as [Hin|Hin]; [|by destruct (Hrest path o)].
    injection Hin as -> ->. split; [done|]. apply Hout. }
  assert (forall l1 l2 (path : str) (o : DataFrame),
            ToCsv path o ∈ [Print l1; Print l2] -> False) as Hp2.
  { intros l1 l2 path o Hin.
    apply elem_of_cons in Hin as [Hin|Hin]; [done|].
    apply elem_of_cons in Hin as [Hin|Hin]; [done|]. by apply elem_of_nil in Hin. }
  assert (forall l1 (path : str) (o : DataFrame), ToCsv path o ∈ [Print l1] -> False)
    as Hp1.
  { intros l1 path o Hin.
    apply elem_of_cons in Hin as [Hin|Hin]; [done|]. by apply elem_of_nil in Hin. }
  destruct (df_column out (lit "author_wikidata_id")) as [authors|e];
    [destruct (df_column out (lit "work_wikidata_id")) as [works|e]|];
    cbn [fst snd].
  - eexists (loaded :: dl ++ ToCsv OUTPUT_FILE out :: [_; _; _]).
    split; [by rewrite <- !app_assoc|]. split.
    + apply Hall.
      intros path o Hin. apply elem_of_cons in Hin as [Hin|Hin]; [done|].
      by apply Hp2 in Hin.
    + intros _. exists out. right. apply elem_of_app. right. by left.
  - eexists (loaded :: dl ++ ToCsv OUTPUT_FILE out :: [_]).
    split; [by rewrite <- !app_assoc|]. split; [|done].
    apply Hall. apply Hp1.
  - eexists (loaded :: dl ++ ToCsv OUTPUT_FILE out :: [_]).
    split; [by rewrite <- !app_assoc|]. split; [|done].
    apply Hall. apply Hp1.
Qed.

(** ** The loop body and the row *)

Lemma series_lookup_absent cols (row : list pyval) key :
  key ∉ cols -> series_lookup (zip cols row) key = None.
Proof.
  revert row. induction cols as [|c cols IH]; intros row Hnot; [done|].
  destruct row as [|v row]; [done|]. simpl.
  rewrite bool_decide_eq_false_2 by (intros ->; apply Hnot; by left).
  apply IH. intros Hin. apply Hnot. by right.
Qed.

Lemma series_lookup_present cols (row : list pyval) key :
  key ∈ cols -> length row = length cols ->
  is_Some (series_lookup (zip cols row) key).
Proof.
  revert row. induction cols as [|c cols IH]; intros row Hin Hlen.
  { by apply elem_of_nil in Hin. }
  destruct row as [|v row]; [done|]. simpl.
  case_bool_decide as Hc; [by eexists|].
  apply IH; [|by injection Hlen].
  apply elem_of_cons in Hin as [->|Hin]; done.
Qed.

(** A frame without [author-name] column stops the run at the first row
    whose author identifier is not in the cache yet: the loop body raises
    [KeyError] for that row before it prints, asks or pauses, so [main]
    ends with the history of the rows before it and writes nothing. *)
Theorem missing_author_name_aborts (df : DataFrame)
    (pre rest : list (list pyval)) (row : list pyval) (v : str)
    (st1 : LoopState) (tr tr1 : list Event) :
  let n := length (data df) in
  let loaded := Print (lit "Loaded " ++ str_of_nat n ++ lit " rows.") in
  data df = pre ++ row :: rest ->
  lit "author-name" ∉ columns df ->
  author_key (row_series df row) = Some v ->
  loop n 0 (map (row_series df) pre) initial_state (tr ++ [loaded]) = (Ok st1, tr1) ->
  author_cache st1 !! v = None ->
  loop_body n (length pre) (row_series df row) st1 tr1
  = (Raise (KeyError (lit "author-name")), tr1)
  /\ main df tr = (Raise (KeyError (lit "author-name")), tr1)
  /\ exists d, tr1 = tr ++ loaded :: d /\ forall path out, ToCsv path out ∉ d.
Proof.
  intros n loaded Hdata Hcol Hkey Hpre Hmiss.
  assert (loop_body n (length pre) (row_series df row) st1 tr1
          = (Raise (KeyError (lit "author-name")), tr1)) as Hbody.
  { rewrite loop_body_run. cbv zeta. rewrite resolve_author_run, Hkey.
    rewrite bool_decide_eq_false_2 by (rewrite Hmiss; by intros [? ?]).
    unfold series_item, row_series. by rewrite series_lookup_absent. }
  split; [exact Hbody|]. split.
  - rewrite main_run. cbv zeta. fold n. fold loaded.
    unfold frame_rows. rewrite Hdata, map_app, loop_app, Hpre.
    rewrite length_map. simpl. unfold bind. by rewrite Hbody.
  - destruct (adds_loop loop_event n 0 (map (row_series df) pre) initial_state
                (adds_loop_body_digits _) (tr ++ [loaded])) as (d & E & Hd).
    rewrite Hpre in E. simpl in E. exists d.
    split; [by rewrite E, <- app_assoc|].
    intros path out Hin. by apply (proj1 (Forall_forall _ _) Hd) in Hin.
Qed.

(** The title search of a row is made with the author identifier that the
    same row was given, cached or just resolved: the loop body calls
    [title_to_wikidata] with the value that it appends to [author_qids]. *)
Theorem title_lookup_uses_row_author (n i : nat) (row : Series) (title : str)
    (st st' : LoopState) (tr tr' : list Event) :
  work_key row = Some (TitleKey title) ->
  work_cache st !! (lit "title:" ++ title) = None ->
  loop_body n i row st tr = (Ok st', tr') ->
  exists d author_qid,
    tr' = tr ++ d
    /\ author_qids st' = author_qids st ++ [author_qid]
    /\ author_qid = author_out (author_cache st') row
    /\ resolutions d
       = match author_key row with
         | Some v => if decide (is_Some (author_cache st !! v)) then []
                     else [ViafLookup v]
         | None => []
         end ++ [TitleLookup title author_qid].
Proof.
  intros Hkey Hmiss. rewrite loop_body_run. cbv zeta.
  destruct (resolve_author _ _ _ _) as [[[acache aq]|e] tr1] eqn:Ea; [|done].
  apply resolve_author_ok in Ea as (d1 & -> & Haq & Ha).
  rewrite resolve_work_run, Hkey. change (cache_key (TitleKey title))
    with (lit "title:" ++ title). rewrite Hmiss.
  destruct (title_to_wikidata_delta title aq
              ((tr ++ d1) ++ [Print (lit "[" ++ str_of_nat (i + 1) ++ lit "/"
                 ++ str_of_nat n ++ lit "]" ++ lit " Work title search " ++ [arrow]
                 ++ lit " " ++ take 60 title)])) as (d2 & E2 & Hd2).
  rewrite <- !app_assoc in E2. rewrite <- !app_assoc.
  destruct (title_to_wikidata _ _ _) as [[qid|e] tr2]; [|done].
  cbn [snd] in E2. subst tr2. intros [= <- <-]. cbn [author_qids author_cache].
  eexists (d1 ++ _ :: _ :: d2 ++ [_]), aq.
  split; [by rewrite <- !app_assoc|]. split; [done|]. split; [done|].
  rewrite resolutions_app. simpl.
  rewrite resolutions_app, (resolutions_plain d2) by by apply query_events_plain.
  simpl. f_equal.
  destruct (author_key row) as [v|].
  - destruct Ha as [(Hs & _ & ->) | (Hn & _ & ->)].
    + by rewrite decide_True.
    + rewrite decide_False; [done|]. rewrite Hn. by intros [? ?].
  - by destruct Ha as [_ ->].
Qed.

(** ** Pauses *)

Lemma tally_nil {A} (o : outcome A) : tally o [].
Proof. by repeat split. Qed.

Lemma tallied_ret {A} (a : A) : tallied (ret a).
Proof. intros tr. exists []. split; [by rewrite app_nil_r|apply tally_nil]. Qed.

Lemma tallied_lift {A} (o : outcome A) : tallied (lift o).
Proof. intros tr. exists []. split; [by rewrite app_nil_r|apply tally_nil]. Qed.

Lemma tallied_print line : tallied (print line).
Proof. intros tr. exists [Print line]. by repeat split. Qed.

Lemma tallied_bind {A B} (m : M A) (k : A -> M B) :
  tallied m -> (forall a, tallied (k a)) -> tallied (bind m k).
Proof.
  intros Hm Hk tr. unfold bind.
  destruct (Hm tr) as (d1 & E1 & H1 & L1 & O1).
  destruct (m tr) as [[a|e] tr1]; cbn [fst snd] in *; subst tr1.
  - destruct (Hk a (tr ++ d1)) as (d2 & E2 & H2 & L2 & O2).
    exists (d1 ++ d2). rewrite E2, app_assoc. split; [done|]. unfold tally.
    rewrite pauses_app, resolutions_app, !length_app.
    pose proof (O1 a eq_refl) as Heq.
    split; [by apply Forall_app|]. split; [lia|].
    intros b Hb. rewrite (O2 b Hb). lia.
  - exists d1. by repeat split.
Qed.

(** A resolver call followed by the pause. *)
Lemma tallied_resolution {A B} (m : M A) (f : A -> B) c :
  (forall tr, exists d, (m tr).2 = tr ++ Invoke c :: d /\ Forall query_event d) ->
  tallied (let* a := m in sleep DELAY ;;; ret (f a)).
Proof.
  intros Hm tr. destruct (Hm tr) as (d & E & Hd).
  assert (pauses d = []) as Hp.
  { clear E. induction Hd as [|e d He _ IH]; [done|]. by destruct e. }
  assert (resolutions d = []) as Hr by by apply resolutions_plain, query_events_plain.
  unfold bind, sleep, emit, ret.
  destruct (m tr) as [[a|e] tr1]; cbn [fst snd] in *; subst tr1.
  - exists (Invoke c :: d ++ [Sleep DELAY]). split; [by rewrite <- app_assoc|].
    unfold tally. simpl. rewrite pauses_app, resolutions_app, Hp, Hr. simpl.
    split; [by repeat constructor|]. split; [lia|done].
  - exists (Invoke c :: d). split; [done|].
    unfold tally. simpl. rewrite Hp, Hr. simpl. split; [done|]. split; [lia|done].
Qed.

Lemma viaf_to_wikidata_events v tr :
  exists d, (viaf_to_wikidata v tr).2 = tr ++ Invoke (ViafLookup v) :: d
            /\ Forall query_event d.
Proof.
  destruct (viaf_to_wikidata_delta v tr) as (resp & w & E & Hw).
  rewrite E. eexists. split; [reflexivity|].
  constructor; [done|]. eapply Forall_impl; [exact Hw|]. by intros e [line ->].
Qed.

Lemma tallied_resolve_author row_num row cache :
  tallied (resolve_author row_num row cache).
Proof.
  unfold resolve_author.
  apply tallied_bind; [|intros ?; apply tallied_ret].
  destruct (extract_viaf_id _) as [[|c v]|]; try apply tallied_ret.
  case_bool_decide; [apply tallied_ret|].
  apply tallied_bind; [apply tallied_lift|]. intros name.
  apply tallied_bind; [apply tallied_print|]. intros _.
  apply (tallied_resolution _ (fun qid => <[c :: v := qid]> cache) (ViafLookup (c :: v))).
  apply viaf_to_wikidata_events.
Qed.

Lemma tallied_resolve_work row_num row author_qid cache :
  tallied (resolve_work row_num row author_qid cache).
Proof.
  assert (forall title,
    tallied
      (if bool_decide (title <> [] /\ title <> lit "nan")
       then
         let cache_key := lit "title:" ++ title in
         let* cache :=
           if bool_decide (is_Some (cache !! cache_key)) then ret cache
           else
             print (row_num ++ lit " Work title search " ++ [arrow] ++ lit " "
                    ++ take 60 title) ;;;
             let* qid := title_to_wikidata title author_qid in
             sleep DELAY ;;;
             ret (<[cache_key := qid]> cache) in
         let* qid := lift (cache_item cache cache_key) in
         ret (cache, qid)
       else ret (cache, None))) as Htitle.
  { intros title. case_bool_decide; [|apply tallied_ret]. cbv zeta.
    apply tallied_bind.
    - case_bool_decide; [apply tallied_ret|].
      apply tallied_bind; [apply tallied_print|]. intros _.
      apply (tallied_resolution _ (fun qid => <[lit "title:" ++ title := qid]> cache)
               (TitleLookup title author_qid)).
      apply title_to_wikidata_delta.
    - intros c. apply tallied_bind; [apply tallied_lift|]. intros ?. apply tallied_ret. }
  unfold resolve_work.
  destruct (extract_viaf_id _) as [[|c v]|]; try apply Htitle.
  apply tallied_bind.
  - case_bool_decide; [apply tallied_ret|].
    apply tallied_bind; [apply tallied_print|]. intros _.
    apply (tallied_resolution _ (fun qid => <[lit "viaf:" ++ c :: v := qid]> cache)
             (ViafLookup (c :: v))).
    apply viaf_to_wikidata_events.
  - intros c'. apply tallied_bind; [apply tallied_lift|]. intros ?. apply tallied_ret.
Qed.

Lemma tallied_loop n i rows st : tallied (loop n i rows st).
Proof.
  revert i st. induction rows as [|row rows IH]; intros i st; simpl.
  - apply tallied_ret.
  - apply tallied_bind; [|intros st'; apply IH].
    unfold loop_body.
    apply tallied_bind; [apply tallied_resolve_author|]. intros [acache author_qid].
    apply tallied_bind; [apply tallied_resolve_work|]. intros [wcache work_qid].
    apply tallied_ret.
Qed.

(** In every run of [main], each pause lasts [DELAY] and comes after a
    resolver call: there are never more pauses than calls of
    [viaf_to_wikidata] and [title_to_wikidata], and in a run that completes
    there are exactly as many.  A row served from the caches adds no
    pause. *)
Theorem pauses_follow_resolutions (df : DataFrame) (tr : list Event) :
  exists d,
    (main df tr).2 = tr ++ d
    /\ Forall (fun s => s = DELAY) (pauses d)
    /\ (length (pauses d) <= length (resolutions d))%nat
    /\ ((main df tr).1 = Ok tt -> length (pauses d) = length (resolutions d)).
Proof.
  assert (tallied (main df)) as Hmain.
  { unfold main.
    apply tallied_bind; [apply tallied_print|]. intros _.
    apply tallied_bind; [apply tallied_loop|]. intros st.
    apply tallied_bind; [apply tallied_lift|]. intros df1.
    apply tallied_bind; [apply tallied_lift|]. intros df2.
    apply tallied_bind.
    { intros tr0. exists [ToCsv OUTPUT_FILE df2]. by repeat split. }
    intros _.
    apply tallied_bind; [apply tallied_print|]. intros _.
    apply tallied_bind; [apply tallied_lift|]. intros authors.
    apply tallied_bind; [apply tallied_lift|]. intros works.
    apply tallied_bind; [apply tallied_print|]. intros _. apply tallied_print. }
  destruct (Hmain tr) as (d & E & Hd & Hle & Hok).
  exists d. split; [done|]. split; [done|]. split; [done|]. apply Hok.
Qed.

(** ** Completion *)

Lemma first_match_safe query label : binds_item -> safe (first_match query label).
Proof.
  intros Hb tr. rewrite first_match_run.
  destruct (respond tr query) as [[|b bs]|e] eqn:E; simpl; try by eexists _, _.
  destruct (Hb _ _ _ _ E) as [uri ->]. by eexists _, _.
Qed.

Lemma viaf_to_wikidata_safe v : binds_item -> safe (viaf_to_wikidata v).
Proof. intros Hb tr. rewrite viaf_to_wikidata_run. by apply first_match_safe. Qed.

Lemma title_fallback_safe title escaped :
  binds_item -> safe (title_fallback title escaped).
Proof.
  intros Hb tr. rewrite title_fallback_run.
  destruct (first_match_safe (label_query escaped) escaped Hb tr) as (r & tr1 & ->).
  destruct (truthy r); [by eexists _, _|].
  case_bool_decide; [by apply first_match_safe|by eexists _, _].
Qed.

Lemma title_to_wikidata_safe title author_qid :
  binds_item -> safe (title_to_wikidata title author_qid).
Proof.
  intros Hb tr. rewrite title_to_wikidata_run. cbv zeta.
  destruct author_qid as [[|c q]|]; try by apply title_fallback_safe.
  destruct (first_match_safe (author_query (escape (normalize_title title)) (c :: q))
              (escape (normalize_title title)) Hb
              (tr ++ [Invoke (TitleLookup title (Some (c :: q)))])) as (r & tr1 & ->).
  destruct (truthy r); [by eexists _, _|by apply title_fallback_safe].
Qed.

Lemma loop_body_safe n i row st :
  binds_item -> is_Some (series_lookup row (lit "author-name")) ->
  safe (loop_body n i row st).
Proof.
  intros Hb [name Hname] tr. rewrite loop_body_run. cbv zeta.
  assert (exists r tr1,
            resolve_author
              (lit "[" ++ str_of_nat (i + 1) ++ lit "/" ++ str_of_nat n ++ lit "]")
              row (author_cache st) tr = (Ok r, tr1)) as (r & tr1 & ->).
  { rewrite resolve_author_run. destruct (author_key row) as [v|]; [|by eexists _, _].
    case_bool_decide; [by eexists _, _|].
    unfold series_item. rewrite Hname.
    destruct (viaf_to_wikidata_safe v Hb
                (tr ++ [Print ((lit "[" ++ str_of_nat (i + 1) ++ lit "/" ++ str_of_nat n
                                ++ lit "]") ++ lit " Author VIAF " ++ v ++ lit "  "
                               ++ [arrow] ++ lit " " ++ py_str name)]))
      as (q & tr1 & ->).
    by eexists _, _. }
  destruct r as [acache aq].
  assert (exists r tr2,
            resolve_work
              (lit "[" ++ str_of_nat (i + 1) ++ lit "/" ++ str_of_nat n ++ lit "]")
              row aq (work_cache st) tr1 = (Ok r, tr2)) as (r & tr2 & ->).
  { rewrite resolve_work_run. destruct (work_key row) as [k|]; [|by eexists _, _].
    destruct (work_cache st !! cache_key k); [by eexists _, _|].
    destruct k as [v|title].
    - destruct (viaf_to_wikidata_safe v Hb
                  (tr1 ++ [Print ((lit "[" ++ str_of_nat (i + 1) ++ lit "/"
                                   ++ str_of_nat n ++ lit "]") ++ lit " Work VIAF " ++ v
                                  ++ lit "  " ++ [arrow] ++ lit " "
                                  ++ take 60 (row_title row))]))
        as (q & tr2 & ->).
      by eexists _, _.
    - destruct (title_to_wikidata_safe title aq Hb
                  (tr1 ++ [Print ((lit "[" ++ str_of_nat (i + 1) ++ lit "/"
                                   ++ str_of_nat n ++ lit "]")
                                  ++ lit " Work title search " ++ [arrow] ++ lit " "
                                  ++ take 60 title)]))
        as (q & tr2 & ->).
      by eexists _, _. }
  destruct r as [wcache wq]. by eexists _, _.
Qed.

Lemma loop_safe n i rows st :
  binds_item ->
  Forall (fun row => is_Some (series_lookup row (lit "author-name"))) rows ->
  safe (loop n i rows st).
Proof.
  intros Hb Hrows. revert i st.
  induction Hrows as [|row rows Hrow _ IH]; intros i st tr; simpl.
  - by eexists _, _.
  - unfold bind.
    destruct (loop_body_safe n i row st Hb Hrow tr) as (st1 & tr1 & ->).
    apply IH.
Qed.

Lemma column_index_is_Some cols col : col ∈ cols -> is_Some (column_index cols col).
Proof.
  induction cols as [|c cols IH]; intros Hin; [by apply elem_of_nil in Hin|].
  simpl. case_bool_decide as Hc; [by eexists|].
  apply elem_of_cons in Hin as [->|Hin]; [done|].
  destruct (IH Hin) as [j ->]. by eexists.
Qed.

Lemma column_index_elem cols col j : column_index cols col = Some j -> col ∈ cols.
Proof.
  revert j. induction cols as [|c cols IH]; intros j; [done|]. simpl.
  case_bool_decide as Hc; [intros _; subst; by left|].
  destruct (column_index cols col) as [j'|]; [|done]. intros _. right. by eapply IH.
Qed.

Lemma df_setitem_ok df col values :
  length values = length (data df) ->
  exists df',
    df_setitem df col values = Ok df'
    /\ length (data df') = length (data df)
    /\ col ∈ columns df'
    /\ (forall c, c ∈ columns df -> c ∈ columns df').
Proof.
  intros Hlen. unfold df_setitem. rewrite bool_decide_eq_true_2 by done.
  destruct (column_index (columns df) col) as [j|] eqn:Ej.
  - eexists. split; [reflexivity|]. cbn [columns data].
    split; [rewrite length_zip_with; lia|]. split; [by eapply column_index_elem|done].
  - eexists. split; [reflexivity|]. cbn [columns data].
    split; [rewrite length_zip_with; lia|].
    split; [apply elem_of_app; right; by left|].
    intros c Hc. apply elem_of_app. by left.
Qed.

Lemma main_safe df tr :
  rectangular df ->
  lit "author-name" ∈ columns df ->
  binds_item ->
  exists tr', main df tr = (Ok tt, tr').
Proof.
  intros Hrect Hcol Hb. rewrite main_run. cbv zeta.
  set (loaded := Print _).
  assert (Forall (fun row => is_Some (series_lookup row (lit "author-name")))
            (frame_rows df)) as Hrows.
  { unfold frame_rows. apply Forall_forall. intros s Hs.
    apply list_elem_of_In, in_map_iff in Hs as (row & <- & Hrow).
    apply list_elem_of_In in Hrow.
    apply series_lookup_present; [done|].
    by apply (proj1 (Forall_forall _ _) Hrect). }
  destruct (loop_safe (length (data df)) 0 (frame_rows df) initial_state Hb Hrows
              (tr ++ [loaded])) as (st & tr1 & El).
  rewrite El.
  destruct (loop_ok _ _ _ _ _ _ _ [] loop_inv_initial El) as ([_ _ Haq Hwq] & _).
  rewrite app_nil_l in Haq, Hwq.
  assert (length (map of_qid (author_qids st)) = length (data df)) as Hla.
  { rewrite Haq. unfold frame_rows. by rewrite !length_map. }
  assert (length (map of_qid (work_qids st)) = length (data df)) as Hlw.
  { rewrite Hwq. unfold frame_rows. by rewrite !length_map. }
  destruct (df_setitem_ok df (lit "author_wikidata_id") _ Hla)
    as (df1 & -> & Hl1 & HA1 & _).
  rewrite <- Hl1 in Hlw.
  destruct (df_setitem_ok df1 (lit "work_wikidata_id") _ Hlw)
    as (df2 & -> & Hl2 & HW2 & Hkeep).
  unfold df_column.
  destruct (column_index_is_Some _ _ (Hkeep _ HA1)) as [ja ->].
  destruct (column_index_is_Some _ _ HW2) as [jw ->].
  by eexists.
Qed.

(** [main] runs to its end for a rectangular frame that has an
    [author-name] column, as long as the results of the endpoint bind
    [item]: no failure of a request stops it, were it the failure of every
    request, and neither of the two column assignments raises. *)
Theorem main_completes (df : DataFrame) (tr : list Event) :
  rectangular df ->
  lit "author-name" ∈ columns df ->
  binds_item ->
  exists tr', main df tr = (Ok tt, tr').
Proof. apply main_safe. Qed.

(** ** The summary *)

Lemma column_index_fresh cols col rest :
  col ∉ cols -> column_index (cols ++ col :: rest) col = Some (length cols).
Proof.
  induction cols as [|c cols IH]; intros Hnot; simpl.
  - by rewrite bool_decide_eq_true_2.
  - rewrite bool_decide_eq_false_2 by (intros ->; apply Hnot; by left).
    rewrite IH; [done|]. intros Hin. apply Hnot. by right.
Qed.

Lemma read_appended j (rows : list (list pyval)) (xs ys : list pyval) :
  Forall (fun row => length row = j) rows ->
  length xs = length rows -> length ys = length rows ->
  map (fun row => default PNaN (row !! j))
    (zip_with (fun row v => row ++ [v]) (zip_with (fun row v => row ++ [v]) rows xs) ys)
  = xs
  /\ map (fun row => default PNaN (row !! S j))
       (zip_with (fun row v => row ++ [v]) (zip_with (fun row v => row ++ [v]) rows xs) ys)
     = ys.
Proof.
  intros Hrows. revert xs ys.
  induction Hrows as [|row rows Hrow _ IH]; intros [|x xs] [|y ys] Hx Hy; try done.
  injection Hx as Hx. injection Hy as Hy.
  destruct (IH xs ys Hx Hy) as [IH1 IH2]. simpl. rewrite IH1, IH2. split; f_equal.
  - rewrite <- app_assoc. simpl. by rewrite list_lookup_middle.
  - rewrite (list_lookup_middle (row ++ [x]) [] y (S j)); [done|].
    rewrite length_app. simpl. lia.
Qed.

Lemma count_notna_of_qid qs : count_notna (map of_qid qs) = length (filter is_Some qs).
Proof.
  unfold count_notna. induction qs as [|[q|] qs IH]; [done| |].
  - change (map of_qid (Some q :: qs)) with (PStr q :: map of_qid qs).
    rewrite filter_cons_True by done. rewrite (filter_cons_True is_Some) by done.
    cbn [length]. by f_equal.
  - change (map of_qid (None :: qs)) with (PNone :: map of_qid qs).
    rewrite filter_cons_False by done.
    rewrite (filter_cons_False is_Some) by (by intros [? ?]). exact IH.
Qed.

(** In a run that completes, on a rectangular frame without columns of the
    output names, the two counts that [main] prints last are the numbers of
    entries other than [None] in the two written columns, which are the
    lists that the loop built; the total is the number of rows.  (An empty
    identifier counts as matched.) *)
Theorem summary_counts (df : DataFrame) (tr tr' : list Event) :
  let n := length (data df) in
  rectangular df ->
  lit "author_wikidata_id" ∉ columns df ->
  lit "work_wikidata_id" ∉ columns df ->
  main df tr = (Ok tt, tr') ->
  exists st tr1 out,
    loop n 0 (frame_rows df) initial_state
      (tr ++ [Print (lit "Loaded " ++ str_of_nat n ++ lit " rows.")]) = (Ok st, tr1)
    /\ df_column out (lit "author_wikidata_id") = Ok (map of_qid (author_qids st))
    /\ df_column out (lit "work_wikidata_id") = Ok (map of_qid (work_qids st))
    /\ tr' = tr1
             ++ [ToCsv OUTPUT_FILE out;
                 Print ([newline] ++ lit "Done. Results saved to '" ++ OUTPUT_FILE
                        ++ lit "'.");
                 Print (lit "Authors matched: "
                        ++ str_of_nat (length (filter is_Some (author_qids st)))
                        ++ lit "/" ++ str_of_nat n);
                 Print (lit "Works   matched: "
                        ++ str_of_nat (length (filter is_Some (work_qids st)))
                        ++ lit "/" ++ str_of_nat n)].
Proof.
  intros n Hrect HA HW. rewrite main_run. cbv zeta. fold n.
  destruct (loop _ _ _ _ _) as [[st|e] tr1] eqn:El; [|done].
  destruct (loop_ok _ _ _ _ _ _ _ [] loop_inv_initial El) as ([_ _ Haq Hwq] & _).
  rewrite app_nil_l in Haq, Hwq.
  assert (length (map of_qid (author_qids st)) = length (data df)) as Hla.
  { rewrite Haq. unfold frame_rows. by rewrite !length_map. }
  assert (length (map of_qid (work_qids st)) = length (data df)) as Hlw.
  { rewrite Hwq. unfold frame_rows. by rewrite !length_map. }
  rewrite df_setitem_fresh by done.
  rewrite df_setitem_fresh; cycle 1.
  { cbn [columns]. intros Hin. apply elem_of_app in Hin as [Hin|Hin]; [done|].
    apply list_elem_of_singleton in Hin. discriminate Hin. }
  { cbn [data]. rewrite length_zip_with. lia. }
  cbn [columns data].
  set (out := {| columns := _; data := _ |}).
  destruct (read_appended (length (columns df)) (data df) _ _ Hrect Hla Hlw)
    as [Hra Hrw].
  assert (df_column out (lit "author_wikidata_id") = Ok (map of_qid (author_qids st)))
    as Ea.
  { unfold df_column, out. cbn [columns data].
    rewrite <- app_assoc. simpl app at 1. by rewrite column_index_fresh, Hra. }
  assert (df_column out (lit "work_wikidata_id") = Ok (map of_qid (work_qids st)))
    as Ew.
  { unfold df_column, out. cbn [columns data].
    rewrite column_index_fresh; cycle 1.
    { intros Hin. apply elem_of_app in Hin as [Hin|Hin]; [done|].
      apply list_elem_of_singleton in Hin. discriminate Hin. }
    rewrite length_app. simpl length. rewrite Nat.add_1_r. by rewrite Hrw. }
  rewrite Ea, Ew. intros Hm.
  pose proof (f_equal snd Hm) as E. cbn [snd] in E. subst tr'.
  exists st, tr1, out. split; [done|]. split; [done|]. split; [done|].
  rewrite !count_notna_of_qid.
  assert (length (data out) = n) as Hlen.
  { unfold out. cbn [data]. rewrite !length_zip_with. unfold n. lia. }
  unfold out in Hlen. cbn [data] in Hlen. rewrite !Hlen. reflexivity.
Qed.

(** ** An endpoint that finds nothing *)

Lemma first_match_nothing query label tr :
  finds_nothing -> (first_match query label tr).1 = Ok None.
Proof.
  intros Hn. rewrite first_match_run.
  by destruct (Hn tr query) as [-> | (e & ->)].
Qed.

Lemma title_fallback_nothing title escaped tr :
  finds_nothing -> (title_fallback title escaped tr).1 = Ok None.
Proof.
  intros Hn. rewrite title_fallback_run.
  pose proof (first_match_nothing (label_query escaped) escaped tr Hn) as E.
  destruct (first_match (label_query escaped) escaped tr) as [o tr1].
  cbn [fst] in E. subst o. cbn [truthy].
  case_bool_decide; [by apply first_match_nothing|done].
Qed.

Lemma title_to_wikidata_nothing title author_qid tr :
  finds_nothing -> (title_to_wikidata title author_qid tr).1 = Ok None.
Proof.
  intros Hn. rewrite title_to_wikidata_run. cbv zeta.
  destruct author_qid as [[|c q]|]; try by apply title_fallback_nothing.
  pose proof (first_match_nothing
                (author_query (escape (normalize_title title)) (c :: q))
                (escape (normalize_title title))
                (tr ++ [Invoke (TitleLookup title (Some (c :: q)))]) Hn) as E.
  destruct (first_match _ _ _) as [o tr1]. cbn [fst] in E. subst o. cbn [truthy].
  by apply title_fallback_nothing.
Qed.

Lemma finds_nothing_binds_item : finds_nothing -> binds_item.
Proof.
  intros Hn tr q b bs E. destruct (Hn tr q) as [E' | (e & E')]; congruence.
Qed.

Lemma loop_body_nothing n i row st tr st' tr' :
  finds_nothing ->
  (forall k q, author_cache st !! k = Some q -> q = None) ->
  (forall k q, work_cache st !! k = Some q -> q = None) ->
  loop_body n i row st tr = (Ok st', tr') ->
  (forall k q, author_cache st' !! k = Some q -> q = None)
  /\ (forall k q, work_cache st' !! k = Some q -> q = None)
  /\ author_qids st' = author_qids st ++ [None]
  /\ work_qids st' = work_qids st ++ [None].
Proof.
  intros Hn Hac Hwc. rewrite loop_body_run. cbv zeta.
  assert (forall (cache : gmap str (option str)) key,
            (forall k q, cache !! k = Some q -> q = None) ->
            forall k q, <[key := None]> cache !! k = Some q -> q = None) as Hins.
  { intros cache key Hc k q. destruct (decide (key = k)) as [->|Hne].
    - rewrite lookup_insert_eq. by intros [= <-].
    - rewrite lookup_insert_ne by done. apply Hc. }
  rewrite resolve_author_run.
  assert (forall v, cache_get (author_cache st) v = None) as Hget.
  { intros v. unfold cache_get. destruct (author_cache st !! v) as [q|] eqn:E; [|done].
    by apply (Hac v). }
  assert (forall (acache : gmap str (option str)) tr1,
    (forall k q, acache !! k = Some q -> q = None) ->
    match
      resolve_work (lit "[" ++ str_of_nat (i + 1) ++ lit "/" ++ str_of_nat n ++ lit "]")
        row None (work_cache st) tr1
    with
    | (Ok (wcache, work_qid), tr2) =>
        (Ok {| author_cache := acache; work_cache := wcache;
               author_qids := author_qids st ++ [None];
               work_qids := work_qids st ++ [work_qid] |}, tr2)
    | (Raise e, tr2) => (Raise e, tr2)
    end = (Ok st', tr') ->
    (forall k q, author_cache st' !! k = Some q -> q = None)
    /\ (forall k q, work_cache st' !! k = Some q -> q = None)
    /\ author_qids st' = author_qids st ++ [None]
    /\ work_qids st' = work_qids st ++ [None]) as Hwork.
  { intros acache tr1 Ha. rewrite resolve_work_run.
    destruct (work_key row) as [k|]; [|by intros [= <- <-]].
    destruct (work_cache st !! cache_key k) as [q|] eqn:Ec.
    { rewrite (Hwc _ _ Ec). by intros [= <- <-]. }
    destruct k as [v|title].
    - pose proof (first_match_nothing (viaf_query v) v
                    ((tr1 ++ [Print ((lit "[" ++ str_of_nat (i + 1) ++ lit "/"
                        ++ str_of_nat n ++ lit "]") ++ lit " Work VIAF " ++ v
                        ++ lit "  " ++ [arrow] ++ lit " " ++ take 60 (row_title row))])
                     ++ [Invoke (ViafLookup v)]) Hn) as E.
      rewrite <- viaf_to_wikidata_run in E.
      destruct (viaf_to_wikidata _ _) as [o tr2]. cbn [fst] in E. subst o.
      intros [= <- <-]. cbn. split; [done|]. split; [by apply Hins|done].
    - pose proof (title_to_wikidata_nothing title None
                    (tr1 ++ [Print ((lit "[" ++ str_of_nat (i + 1) ++ lit "/"
                        ++ str_of_nat n ++ lit "]") ++ lit " Work title search "
                        ++ [arrow] ++ lit " " ++ take 60 title)]) Hn) as E.
      destruct (title_to_wikidata _ _ _) as [o tr2]. cbn [fst] in E. subst o.
      intros [= <- <-]. cbn. split; [done|]. split; [by apply Hins|done]. }
  destruct (author_key row) as [v|]; [|by apply Hwork].
  case_bool_decide; [rewrite Hget; by apply Hwork|].
  destruct (series_item row _) as [name|e]; [|done].
  pose proof (first_match_nothing (viaf_query v) v
                ((tr ++ [Print ((lit "[" ++ str_of_nat (i + 1) ++ lit "/"
                    ++ str_of_nat n ++ lit "]") ++ lit " Author VIAF " ++ v ++ lit "  "
                    ++ [arrow] ++ lit " " ++ py_str name)])
                 ++ [Invoke (ViafLookup v)]) Hn) as E.
  rewrite <- viaf_to_wikidata_run in E.
  destruct (viaf_to_wikidata _ _) as [o tr1]. cbn [fst] in E. subst o.
  apply Hwork. by apply Hins.
Qed.

Lemma loop_nothing n i rows st tr st' tr' :
  finds_nothing ->
  (forall k q, author_cache st !! k = Some q -> q = None) ->
  (forall k q, work_cache st !! k = Some q -> q = None) ->
  loop n i rows st tr = (Ok st', tr') ->
  author_qids st' = author_qids st ++ replicate (length rows) None
  /\ work_qids st' = work_qids st ++ replicate (length rows) None.
Proof.
  intros Hn. revert i st tr. induction rows as [|row rows IH]; intros i st tr Hac Hwc.
  - intros [= <- <-]. by rewrite !app_nil_r.
  - simpl. unfold bind.
    destruct (loop_body n i row st tr) as [[st1|e] tr1] eqn:Eb; [|done].
    destruct (loop_body_nothing _ _ _ _ _ _ _ Hn Hac Hwc Eb) as (Hac1 & Hwc1 & Ea & Ew).
    intros Hrest. destruct (IH _ _ _ Hac1 Hwc1 Hrest) as [-> ->].
    by rewrite Ea, Ew, <- !app_assoc.
Qed.

(** When the endpoint finds nothing, every request failing or coming back
    empty, [main] still runs to its end on a rectangular frame with an
    [author-name] column, and it records [None] for the author and for the
    work of every row. *)
Theorem nothing_found_all_absent (df : DataFrame) (tr : list Event) :
  let n := length (data df) in
  rectangular df ->
  lit "author-name" ∈ columns df ->
  finds_nothing ->
  (main df tr).1 = Ok tt
  /\ exists st tr1,
       loop n 0 (frame_rows df) initial_state
         (tr ++ [Print (lit "Loaded " ++ str_of_nat n ++ lit " rows.")]) = (Ok st, tr1)
       /\ author_qids st = replicate n None
       /\ work_qids st = replicate n None.
Proof.
  intros n Hrect Hcol Hn.
  destruct (main_safe df tr Hrect Hcol (finds_nothing_binds_item Hn)) as (tr' & Em).
  split; [by rewrite Em|].
  rewrite main_run in Em. cbv zeta in Em. fold n in Em.
  destruct (loop _ _ _ _ _) as [[st|e] tr1] eqn:El; [|done].
  exists st, tr1. split; [done|].
  assert (forall k q, (∅ : gmap str (option str)) !! k = Some q -> q = None) as Hempty.
  { intros k q E. by rewrite lookup_empty in E. }
  destruct (loop_nothing n 0 (frame_rows df) initial_state _ st tr1 Hn Hempty Hempty El)
    as [Ha Hw].
  unfold frame_rows in Ha, Hw. rewrite length_map in Ha, Hw. done.
Qed.

(** ** The caches only grow *)

Lemma loop_body_caches_grow n i row st tr st' tr' :
  loop_body n i row st tr = (Ok st', tr') ->
  author_cache st ⊆ author_cache st' /\ work_cache st ⊆ work_cache st'.
Proof.
  rewrite loop_body_run. cbv zeta.
  destruct (resolve_author _ _ _ _) as [[[acache aq]|e] tr1] eqn:Ea; [|done].
  destruct (resolve_work _ _ _ _ _) as [[[wcache wq]|e] tr2] eqn:Ew; [|done].
  intros [= <- <-]. cbn [author_cache work_cache].
  apply resolve_author_ok in Ea as (d1 & _ & _ & Ha).
  apply resolve_work_ok in Ew as (d2 & _ & _ & Hw).
  split.
  - destruct (author_key row) as [v|].
    + destruct Ha as [(_ & -> & _) | (Hn & -> & _)]; [done|]. by apply insert_subseteq.
    + by destruct Ha as [-> _].
  - destruct (work_key row) as [k|].
    + destruct Hw as [(_ & -> & _) | (Hn & -> & _)]; [done|]. by apply insert_subseteq.
    + by destruct Hw as [-> _].
Qed.

(** A resolution that is in a cache stays there unchanged to the end of the
    loop: no later row replaces or removes what an earlier row was given,
    an absent result included. *)
Theorem caches_only_grow (n i : nat) (rows : list Series) (st st' : LoopState)
    (tr tr' : list Event) :
  loop n i rows st tr = (Ok st', tr') ->
  (forall v q, author_cache st !! v = Some q -> author_cache st' !! v = Some q)
  /\ (forall k q, work_cache st !! k = Some q -> work_cache st' !! k = Some q).
Proof.
  intros Hloop.
  assert (author_cache st ⊆ author_cache st' /\ work_cache st ⊆ work_cache st')
    as [Ha Hw].
  { revert i st tr Hloop. induction rows as [|row rows IH]; intros i st tr.
    - by intros [= <- <-].
    - simpl. unfold bind.
      destruct (loop_body n i row st tr) as [[st1|e] tr1] eqn:Eb; [|done].
      intros Hrest. destruct (loop_body_caches_grow _ _ _ _ _ _ _ Eb) as [Ha1 Hw1].
      destruct (IH _ _ _ Hrest) as [Ha2 Hw2].
      split; by etransitivity. }
  split; intros k q Hk; by eapply lookup_weaken.
Qed.

End Driver.

(** * Runs on the sample worlds *)


(** C5. The code departs from the claim: [main] pauses once after a whole
    work resolution, and [title_to_wikidata] sends its fallback queries one
    after the other with no pause between them.  For a title with a
    subtitle that is not found, the query for the normalized title is
    followed at once by the query for the full title. *)
Theorem fallback_queries_are_not_paced :
  let tr := (@main ascii_unicode empty_endpoint subtitle_frame []).2 in
  paced false tr = false
  /\ exists pre post,
       tr = pre
            ++ [HttpGet SPARQL_URL (label_query (lit "Lalka")) (Bindings []);
                HttpGet SPARQL_URL (full_title_query (lit "Lalka: powiesc"))
                  (Bindings [])]
            ++ post
       /\ resolutions pre = [TitleLookup (lit "Lalka: powiesc") None]
       /\ head post = Some (Sleep DELAY).
Proof.
  intros tr. split; [by vm_compute|].
  exists (take 3 tr), (drop 5 tr). by vm_compute.
Qed.

(** C9, as stated, fails: a column of the input that has the name of an
    output column is overwritten, and one column only is appended. *)
Lemma output_overwrites_existing_column :
  exists out,
    ToCsv OUTPUT_FILE out ∈ (@main ascii_unicode empty_endpoint enriched_frame []).2
    /\ forall tr d,
         ~ @output_extends_input ascii_unicode empty_endpoint enriched_frame tr d out.
Proof.
  exists {| columns := [lit "title"; lit "author_wikidata_id"; lit "work_wikidata_id"];
            data := [ [PNaN; PNone; PNone] ] |}.
  split.
  - apply (list_elem_of_lookup_2 _ 1%nat). by vm_compute.
  - intros tr d [Hcols _]. vm_compute in Hcols. discriminate Hcols.
Qed.

Lemma output_appends_two_columns_witness :
  (lit "author_wikidata_id" ∉ columns sample_frame)
  /\ (lit "work_wikidata_id" ∉ columns sample_frame)
  /\ exists d,
       (@main ascii_unicode sample_endpoint sample_frame []).2 = [] ++ d
       /\ (forall path out,
             ToCsv path out ∈ d ->
             path = OUTPUT_FILE
             /\ @output_extends_input ascii_unicode sample_endpoint sample_frame [] d out)
       /\ ((@main ascii_unicode sample_endpoint sample_frame []).1 = Ok tt ->
           exists out, ToCsv OUTPUT_FILE out ∈ d).
Proof.
  assert (lit "author_wikidata_id" ∉ columns sample_frame) as HA.
  { apply (bool_decide_unpack _). by vm_compute. }
  assert (lit "work_wikidata_id" ∉ columns sample_frame) as HW.
  { apply (bool_decide_unpack _). by vm_compute. }
  split; [exact HA|]. split; [exact HW|].
  exact (@output_appends_two_columns ascii_unicode sample_endpoint sample_frame [] HA HW).
Defined.

Lemma one_resolution_per_key_witness :
  @main ascii_unicode sample_endpoint sample_frame []
  = (Ok tt, (@main ascii_unicode sample_endpoint sample_frame []).2)
  /\ exists d st,
       (@main ascii_unicode sample_endpoint sample_frame []).2 = [] ++ d
       /\ map lookup_key (resolutions d)
          ≡ₚ @distinct_lookups ascii_unicode (frame_rows sample_frame)
       /\ length (resolutions d)
          = (length (remove_dups (omap (@author_key ascii_unicode) (frame_rows sample_frame)))
             + length (remove_dups (omap (@work_key ascii_unicode) (frame_rows sample_frame))))%nat
       /\ (@loop ascii_unicode sample_endpoint (length (data sample_frame)) 0
             (frame_rows sample_frame) initial_state
             ([] ++ [Print (lit "Loaded " ++ str_of_nat (length (data sample_frame))
                            ++ lit " rows.")])).1 = Ok st
       /\ author_qids st
          = map (@author_out ascii_unicode (author_cache st)) (frame_rows sample_frame)
       /\ work_qids st
          = map (@work_out ascii_unicode (work_cache st)) (frame_rows sample_frame)
       /\ (forall i a, author_qids st !! i = Some a ->
             @author_result ascii_unicode sample_endpoint (length (data sample_frame))
               (frame_rows sample_frame) [] d i a)
       /\ (forall i w, work_qids st !! i = Some w ->
             @work_result ascii_unicode sample_endpoint (length (data sample_frame))
               (frame_rows sample_frame) [] d i w).
Proof.
  assert (@main ascii_unicode sample_endpoint sample_frame []
          = (Ok tt, (@main ascii_unicode sample_endpoint sample_frame []).2)) as Hrun.
  { by vm_compute. }
  split; [exact Hrun|].
  exact (@one_resolution_per_key ascii_unicode sample_endpoint sample_frame [] _ Hrun).
Defined.

Lemma work_identifier_takes_precedence_witness :
  data sample_frame = sample_done ++ sample_third :: []
  /\ @extract_viaf_id ascii_unicode
       (series_get (row_series sample_frame sample_third) (lit "title-ids") (PStr []))
     = Some (lit "77")
  /\ sample_midway = (Ok sample_state, sample_midway.2)
  /\ exists d,
       (@loop_body ascii_unicode sample_endpoint 3 2
          (row_series sample_frame sample_third) sample_state sample_midway.2).2
       = sample_midway.2 ++ d
       /\ Forall viaf_only d
       /\ (forall st2,
             (@loop_body ascii_unicode sample_endpoint 3 2
                (row_series sample_frame sample_third) sample_state sample_midway.2).1
             = Ok st2 ->
             exists q resp,
               work_qids st2 = work_qids sample_state ++ [q]
               /\ HttpGet SPARQL_URL (viaf_query (lit "77")) resp ∈ sample_midway.2 ++ d
               /\ @response_qid sample_endpoint resp = Ok q)
       /\ exists rest,
            (@main ascii_unicode sample_endpoint sample_frame []).2
            = sample_midway.2 ++ d ++ rest.
Proof.
  assert (data sample_frame = sample_done ++ sample_third :: []) as H1 by reflexivity.
  assert (@extract_viaf_id ascii_unicode
            (series_get (row_series sample_frame sample_third) (lit "title-ids") (PStr []))
          = Some (lit "77")) as H2 by (by vm_compute).
  assert (sample_midway = (Ok sample_state, sample_midway.2)) as H3 by (by vm_compute).
  split; [exact H1|]. split; [exact H2|]. split; [exact H3|].
  exact (@work_identifier_takes_precedence ascii_unicode sample_endpoint sample_frame
           sample_done [] sample_third (lit "77") sample_state sample_midway.2 H1 H2 H3).
Defined.

Lemma extract_viaf_id_witness :
  lit "12345" <> []
  /\ Forall (fun c => @isdecimal ascii_unicode c = true) (lit "12345")
  /\ @extract_viaf_id ascii_unicode
       (PStr (lit "https://viaf.org/viaf/" ++ lit "12345" ++ lit "/"))
     = Some (lit "12345").
Proof.
  assert (lit "12345" <> []) as H1 by discriminate.
  assert (Forall (fun c => @isdecimal ascii_unicode c = true) (lit "12345")) as H2
    by (by repeat constructor).
  split; [exact H1|]. split; [exact H2|].
  exact (proj1 (proj2 (@extract_viaf_id_spec ascii_unicode)) (lit "12345") H1 H2).
Defined.

Lemma sample_endpoint_binds_item : @binds_item sample_endpoint.
Proof.
  intros tr q b bs. unfold respond, sample_endpoint, entity.
  repeat case_bool_decide; intros [= <- <-]; rewrite lookup_singleton_eq; by eexists.
Defined.

Lemma sample_frame_rectangular : rectangular sample_frame.
Proof. by repeat constructor. Defined.

Lemma main_completes_witness :
  rectangular sample_frame
  /\ lit "author-name" ∈ columns sample_frame
  /\ @binds_item sample_endpoint
  /\ exists tr', @main ascii_unicode sample_endpoint sample_frame [] = (Ok tt, tr').
Proof.
  assert (lit "author-name" ∈ columns sample_frame) as Hcol by (by left).
  split; [exact sample_frame_rectangular|]. split; [exact Hcol|].
  split; [exact sample_endpoint_binds_item|].
  exact (@main_completes ascii_unicode sample_endpoint sample_frame []
           sample_frame_rectangular Hcol sample_endpoint_binds_item).
Defined.

Lemma summary_counts_witness :
  rectangular sample_frame
  /\ (lit "author_wikidata_id" ∉ columns sample_frame)
  /\ (lit "work_wikidata_id" ∉ columns sample_frame)
  /\ @main ascii_unicode sample_endpoint sample_frame []
     = (Ok tt, (@main ascii_unicode sample_endpoint sample_frame []).2)
  /\ exists st tr1 out,
       @loop ascii_unicode sample_endpoint 3 0 (frame_rows sample_frame) initial_state
         ([] ++ [Print (lit "Loaded " ++ str_of_nat 3 ++ lit " rows.")]) = (Ok st, tr1)
       /\ df_column out (lit "author_wikidata_id") = Ok (map of_qid (author_qids st))
       /\ df_column out (lit "work_wikidata_id") = Ok (map of_qid (work_qids st))
       /\ (@main ascii_unicode sample_endpoint sample_frame []).2
          = tr1
            ++ [ToCsv OUTPUT_FILE out;
                Print ([newline] ++ lit "Done. Results saved to '" ++ OUTPUT_FILE
                       ++ lit "'.");
                Print (lit "Authors matched: "
                       ++ str_of_nat (length (filter is_Some (author_qids st)))
                       ++ lit "/" ++ str_of_nat 3);
                Print (lit "Works   matched: "
                       ++ str_of_nat (length (filter is_Some (work_qids st)))
                       ++ lit "/" ++ str_of_nat 3)].
Proof.
  assert (lit "author_wikidata_id" ∉ columns sample_frame) as HA.
  { apply (bool_decide_unpack _). by vm_compute. }
  assert (lit "work_wikidata_id" ∉ columns sample_frame) as HW.
  { apply (bool_decide_unpack _). by vm_compute. }
  assert (@main ascii_unicode sample_endpoint sample_frame []
          = (Ok tt, (@main ascii_unicode sample_endpoint sample_frame []).2)) as Hrun.
  { by vm_compute. }
  split; [exact sample_frame_rectangular|]. split; [exact HA|]. split; [exact HW|].
  split; [exact Hrun|].
  exact (@summary_counts ascii_unicode sample_endpoint sample_frame [] _
           sample_frame_rectangular HA HW Hrun).
Defined.

Lemma nothing_found_all_absent_witness :
  rectangular sample_frame
  /\ lit "author-name" ∈ columns sample_frame
  /\ @finds_nothing empty_endpoint
  /\ (@main ascii_unicode empty_endpoint sample_frame []).1 = Ok tt
  /\ exists st tr1,
       @loop ascii_unicode empty_endpoint 3 0 (frame_rows sample_frame) initial_state
         ([] ++ [Print (lit "Loaded " ++ str_of_nat 3 ++ lit " rows.")]) = (Ok st, tr1)
       /\ author_qids st = replicate 3 None
       /\ work_qids st = replicate 3 None.
Proof.
  assert (lit "author-name" ∈ columns sample_frame) as Hcol by (by left).
  assert (@finds_nothing empty_endpoint) as Hn by (intros tr q; by left).
  split; [exact sample_frame_rectangular|]. split; [exact Hcol|]. split; [exact Hn|].
  exact (@nothing_found_all_absent ascii_unicode empty_endpoint sample_frame []
           sample_frame_rectangular Hcol Hn).
Defined.

Lemma missing_author_name_aborts_witness :
  let loaded := Print (lit "Loaded " ++ str_of_nat 1 ++ lit " rows.") in
  let row := [PStr (lit "https://viaf.org/viaf/12345/"); PStr (lit "Lalka")] in
  data nameless_frame = [] ++ row :: []
  /\ (lit "author-name" ∉ columns nameless_frame)
  /\ @author_key ascii_unicode (row_series nameless_frame row) = Some (lit "12345")
  /\ @loop ascii_unicode sample_endpoint 1 0 (map (row_series nameless_frame) [])
       initial_state ([] ++ [loaded]) = (Ok initial_state, [loaded])
  /\ author_cache initial_state !! lit "12345" = None
  /\ @loop_body ascii_unicode sample_endpoint 1 0 (row_series nameless_frame row)
       initial_state [loaded]
     = (Raise (KeyError (lit "author-name")), [loaded])
  /\ @main ascii_unicode sample_endpoint nameless_frame []
     = (Raise (KeyError (lit "author-name")), [loaded])
  /\ exists d, [loaded] = [] ++ loaded :: d /\ forall path out, ToCsv path out ∉ d.
Proof.
  intros loaded row.
  assert (data nameless_frame = [] ++ row :: []) as H1 by reflexivity.
  assert (lit "author-name" ∉ columns nameless_frame) as H2.
  { apply (bool_decide_unpack _). by vm_compute. }
  assert (@author_key ascii_unicode (row_series nameless_frame row) = Some (lit "12345"))
    as H3 by (by vm_compute).
  assert (@loop ascii_unicode sample_endpoint 1 0 (map (row_series nameless_frame) [])
            initial_state ([] ++ [loaded]) = (Ok initial_state, [loaded])) as H4
    by reflexivity.
  assert (author_cache initial_state !! lit "12345" = None) as H5
    by apply lookup_empty.
  split; [exact H1|]. split; [exact H2|]. split; [exact H3|]. split; [exact H4|].
  split; [exact H5|].
  exact (@missing_author_name_aborts ascii_unicode sample_endpoint nameless_frame
           [] [] row (lit "12345") initial_state [] [loaded] H1 H2 H3 H4 H5).
Defined.

Lemma title_lookup_uses_row_author_witness :
  @work_key ascii_unicode sample_first = Some (TitleKey (lit "Lalka"))
  /\ work_cache initial_state !! (lit "title:" ++ lit "Lalka") = None
  /\ sample_step = (Ok sample_step_state, sample_step.2)
  /\ exists d author_qid,
       sample_step.2 = [] ++ d
       /\ author_qids sample_step_state = author_qids initial_state ++ [author_qid]
       /\ author_qid = @author_out ascii_unicode (author_cache sample_step_state) sample_first
       /\ resolutions d
          = match @author_key ascii_unicode sample_first with
            | Some v => if decide (is_Some (author_cache initial_state !! v)) then []
                        else [ViafLookup v]
            | None => []
            end ++ [TitleLookup (lit "Lalka") author_qid].
Proof.
  assert (@work_key ascii_unicode sample_first = Some (TitleKey (lit "Lalka"))) as H1
    by (by vm_compute).
  assert (work_cache initial_state !! (lit "title:" ++ lit "Lalka") = None) as H2
    by apply lookup_empty.
  assert (sample_step = (Ok sample_step_state, sample_step.2)) as H3 by (by vm_compute).
  split; [exact H1|]. split; [exact H2|]. split; [exact H3|].
  exact (@title_lookup_uses_row_author ascii_unicode sample_endpoint 3 0 sample_first
           (lit "Lalka") initial_state sample_step_state [] sample_step.2 H1 H2 H3).
Defined.

Lemma caches_only_grow_witness :
  sample_final = (Ok sample_final_state, sample_final.2)
  /\ author_cache sample_state !! lit "12345" = Some (Some (lit "Q1"))
  /\ author_cache sample_state !! lit "999" = Some None
  /\ work_cache sample_state !! (lit "title:" ++ lit "Lalka") = Some (Some (lit "Q2"))
  /\ work_cache sample_state !! (lit "viaf:" ++ lit "77") = None
  /\ work_cache sample_final_state !! (lit "viaf:" ++ lit "77") = Some (Some (lit "Q7"))
  /\ (forall v q, author_cache sample_state !! v = Some q ->
                  author_cache sample_final_state !! v = Some q)
  /\ (forall k q, work_cache sample_state !! k = Some q ->
                  work_cache sample_final_state !! k = Some q).
Proof.
  assert (sample_final = (Ok sample_final_state, sample_final.2)) as H1 by (by vm_compute).
  split; [exact H1|].
  split; [by vm_compute|]. split; [by vm_compute|]. split; [by vm_compute|].
  split; [by vm_compute|]. split; [by vm_compute|].
  exact (@caches_only_grow ascii_unicode sample_endpoint 3 2
           [row_series sample_frame sample_third] sample_state sample_final_state
           sample_midway.2 sample_final.2 H1).
Defined.
